(** * system_monitor.cpp: the sampling-and-estimation engine

    A shallow embedding of [SnapshotProcesses], of the session loop of
    [main] and of the library routines they rely on, followed by the
    properties of the sampling cycle. *)

From Stdlib Require Import ZArith Lia Bool List Ascii String.
From Stdlib Require Import Sorting.Sorted Sorting.Permutation.
From Stdlib Require Import Floats.SpecFloat.
From stdpp Require Import gmap strings list sorting.

Local Open Scope Z_scope.

(** ** Machine integers

    The program is built with MinGW (see the header of the source file), an
    LLP64 target: [DWORD], [unsigned int] and [unsigned long] are 32 bits
    wide, [unsigned long long] is 64 bits wide.  Values are kept in [Z] and
    every arithmetic result is reduced explicitly. *)

(** The literal of line 74, and the largest [unsigned long]. *)
Definition MAX_TICK : Z := 0xFFFFFFFF.
Definition ULONG_MAX : Z := 2 ^ 32 - 1.

Definition wrap32 (z : Z) : Z := z mod 2 ^ 32.
Definition wrap64 (z : Z) : Z := z mod 2 ^ 64.

Definition is_u32 (z : Z) : Prop := 0 <= z < 2 ^ 32.
Definition is_u64 (z : Z) : Prop := 0 <= z < 2 ^ 64.

(** ** IEEE 754 binary64 ([double])

    [double] values are the specification floats of the standard library at
    precision 53 and maximal exponent 1024; every operation rounds to
    nearest, ties to even. *)

Definition double : Type := spec_float.

Definition dprec : Z := 53.
Definition demax : Z := 1024.

(** Conversion of an integer, as done by a cast [(double)z]. *)
Definition double_of_Z (z : Z) : double := binary_normalize dprec demax z 0 false.

Definition dmul (x y : double) : double := SFmul dprec demax x y.
Definition ddiv (x y : double) : double := SFdiv dprec demax x y.
Definition dlt (x y : double) : bool := SFltb x y.
Definition dgt (x y : double) : bool := SFltb y x.
Definition dle (x y : double) : bool := SFleb x y.
Definition deq (x y : double) : bool := SFeqb x y.

(** The literals of the source. *)
Definition d0 : double := S754_zero false.          (* 0.0 *)
Definition d10000 : double := double_of_Z 10000.    (* 10000.0 *)
Definition d100 : double := double_of_Z 100.        (* 100.0 *)

Definition is_nan (x : double) : bool :=
  match x with S754_nan => true | _ => false end.

(** A double that is neither NaN nor negative. *)
Definition nonneg (x : double) : Prop :=
  match x with
  | S754_zero false | S754_infinity false | S754_finite false _ _ => True
  | _ => False
  end.

(** A positive finite double of magnitude between [lo] and [hi]: its value
    lies in [[2^(lo-1), 2^hi)]. *)
Definition pos_mag (lo hi : Z) (x : double) : Prop :=
  exists m e, x = S754_finite false m e /\ lo <= Zpos (digits2_pos m) + e <= hi.

(** ** Line 74: elapsed milliseconds between two tick readings *)

Definition deltaMs (prevTick curTick : Z) : Z :=
  if curTick >=? prevTick
  then wrap32 (curTick - prevTick)
  else wrap32 (wrap32 (MAX_TICK - prevTick) + curTick).

(** ** The operating system, as seen by one call of [SnapshotProcesses]

    The Win32 calls are an oracle.  A process snapshot either cannot be
    created or lists process entries; [Process32First] fails exactly when
    there is no entry.  [OpenProcess] is asked once per loop iteration, so its
    answer is indexed by the iteration as well as by the identifier: two
    queries of one identifier need not agree. *)

Record FILETIME := { dwLowDateTime : Z; dwHighDateTime : Z }.

Record PROCESSENTRY32 := { th32ProcessID : Z; szExeFile : string }.

Record ProcessTimes :=
  { ftCreation : FILETIME; ftExit : FILETIME; ftKernel : FILETIME; ftUser : FILETIME }.

(** A non-null handle opened with [PROCESS_QUERY_INFORMATION]: what
    [GetProcessTimes] answers on it ([None] when it returns [FALSE]). *)
Record HANDLE := { GetProcessTimes : option ProcessTimes }.

Record OS :=
  { CreateToolhelp32Snapshot : option (list PROCESSENTRY32);
    OpenProcess : nat -> Z -> option HANDLE;
    dwNumberOfProcessors : Z }.

(** ** Lines 16-42 *)

Record ProcInfo := { pid : Z; name : string; cpuPercent : double }.

(** [ULARGE_INTEGER]: the two 32-bit halves read back as one 64-bit value. *)
Definition FileTimeToULL (ft : FILETIME) : Z :=
  Z.lor (Z.shiftl (wrap32 (dwHighDateTime ft)) 32) (wrap32 (dwLowDateTime ft)).

Definition GetProcTime100ns (hProc : HANDLE) : option Z :=
  match GetProcessTimes hProc with
  | None => None
  | Some times =>
      Some (wrap64 (FileTimeToULL (ftKernel times) + FileTimeToULL (ftUser times)))
  end.

(** ** Lines 45-109: [SnapshotProcesses]

    The two [std::map] arguments are passed by reference.  They live in a
    store of map objects and the function receives their addresses, so that
    what it does to the object behind [prevTimes] can be stated. *)

Abbreviation TimesMap := (gmap Z Z).
Abbreviation Store := (gmap nat (gmap Z Z)).

(** Lines 64-71: the do-while over [Process32Next]. *)
Fixpoint enumerate (pe : PROCESSENTRY32) (next : list PROCESSENTRY32) : list ProcInfo :=
  {| pid := th32ProcessID pe; name := szExeFile pe; cpuPercent := d0 |}
  :: match next with
     | [] => []
     | pe' :: next' => enumerate pe' next'
     end.

(** Lines 76-80. *)
Definition numCores (os : OS) : Z :=
  let n := wrap32 (dwNumberOfProcessors os) in
  if n <? 1 then 1 else n.

(** Lines 96-101. *)
Definition usage (deltaMs numCores t100ns prev100ns : Z) : double :=
  let deltaProc := if t100ns >? prev100ns then wrap64 (t100ns - prev100ns) else 0 in
  let wall100ns := dmul (double_of_Z deltaMs) d10000 in
  let usage := dmul (ddiv (double_of_Z deltaProc) (dmul wall100ns (double_of_Z numCores))) d100 in
  if dlt usage d0 then d0 else usage.

Definition set_cpuPercent (p : ProcInfo) (u : double) : ProcInfo :=
  {| pid := pid p; name := name p; cpuPercent := u |}.

Section SnapshotProcesses.
Variable os : OS.
Variable prevTimes : nat.      (* address of the map of the last sample *)
Variables prevTick curTick : Z.
Variable outNewTimes : nat.    (* address of the map to fill *)

(** Lines 84-105: one iteration, on [list[i]]. *)
Definition query (i : nat) (p : ProcInfo) (σ : Store) : ProcInfo * Store :=
  match OpenProcess os i (pid p) with
  | None => (p, σ)
  | Some h =>
      match GetProcTime100ns h with
      | None => (p, σ)
      | Some t100ns =>
          let σ' := <[outNewTimes := <[pid p := t100ns]> (σ !!! outNewTimes)]> σ in
          match (σ' !!! prevTimes) !! pid p with
          | Some prev100ns =>
              if deltaMs prevTick curTick >? 0
              then (set_cpuPercent p
                      (usage (deltaMs prevTick curTick) (numCores os) t100ns prev100ns), σ')
              else (p, σ')
          | None => (p, σ')
          end
      end
  end.

(** Lines 82-106: the loop visits the entries in order; iteration [i]
    reads and writes [list[i]] only. *)
Fixpoint query_all (i : nat) (procs : list ProcInfo) (σ : Store) : list ProcInfo * Store :=
  match procs with
  | [] => ([], σ)
  | p :: rest =>
      let '(p', σ') := query i p σ in
      let '(rest', σ'') := query_all (S i) rest σ' in
      (p' :: rest', σ'')
  end.

Definition SnapshotProcesses (σ : Store) : list ProcInfo * Store :=
  match CreateToolhelp32Snapshot os with
  | None => ([], σ)
  | Some [] => ([], σ)
  | Some (pe :: next) => query_all 0%nat (enumerate pe next) σ
  end.
End SnapshotProcesses.

(** The counter that iteration [i] reads for an identifier, when both
    [OpenProcess] and [GetProcessTimes] succeed. *)
Definition read_time (os : OS) (i : nat) (pid : Z) : option Z :=
  h ← OpenProcess os i pid; GetProcTime100ns h.

(** The entries of the snapshot (none when it cannot be taken). *)
Definition entries (os : OS) : list PROCESSENTRY32 :=
  default [] (CreateToolhelp32Snapshot os).

(** The list built by lines 51-72. *)
Definition enumerated (os : OS) : list ProcInfo :=
  map (fun pe => {| pid := th32ProcessID pe; name := szExeFile pe; cpuPercent := d0 |})
      (entries os).

(** What the loop of lines 82-106 leaves in the map it fills: the counters
    read, in the order of the iterations. *)
Fixpoint recorded (os : OS) (i : nat) (procs : list ProcInfo) (m : TimesMap) : TimesMap :=
  match procs with
  | [] => m
  | p :: rest =>
      recorded os (S i) rest
        (match read_time os i (pid p) with Some t => <[pid p := t]> m | None => m end)
  end.

(** ** [std::sort]

    Lines 176 and 181 call [std::sort] of the C++ standard library.  The
    file header names the toolchain (MinGW GCC 6.3.0), whose libstdc++
    implements it in [bits/stl_algo.h] and [bits/stl_heap.h] as an
    introsort: quicksort with a median-of-three pivot down to ranges of 16
    elements, heapsort once the depth limit is used up, and a final
    insertion sort.  The routines are embedded one by one.  The vector is a
    list, an iterator is a position in it, and a read or write outside the
    vector (undefined behaviour) gives [None]. *)

Section std_sort.
Context {A : Type}.
Variable comp : A -> A -> bool.
Local Open Scope nat_scope.

Definition S_threshold : nat := 16.

Definition iter_swap (a b : nat) (v : list A) : option (list A) :=
  x ← v !! a; y ← v !! b; Some (<[b := x]> (<[a := y]> v)).

(** [__move_median_to_first] *)
Definition move_median_to_first (result a b c : nat) (v : list A) : option (list A) :=
  va ← v !! a; vb ← v !! b; vc ← v !! c;
  if comp va vb then
    if comp vb vc then iter_swap result b v
    else if comp va vc then iter_swap result c v
    else iter_swap result a v
  else if comp va vc then iter_swap result a v
  else if comp vb vc then iter_swap result c v
  else iter_swap result b v.

(** [while (__comp(__first, __pivot)) ++__first;] *)
Fixpoint scan_up (fuel first pivot : nat) (v : list A) : option nat :=
  match fuel with
  | 0 => None
  | S fuel =>
      x ← v !! first; p ← v !! pivot;
      if comp x p then scan_up fuel (S first) pivot v else Some first
  end.

(** [while (__comp(__pivot, __last)) --__last;] *)
Fixpoint scan_down (last pivot : nat) (v : list A) : option nat :=
  x ← v !! last; p ← v !! pivot;
  if comp p x
  then match last with 0 => None | S last' => scan_down last' pivot v end
  else Some last.

(** [__unguarded_partition] *)
Fixpoint unguarded_partition (fuel first last pivot : nat) (v : list A)
  : option (nat * list A) :=
  match fuel with
  | 0 => None
  | S fuel =>
      first ← scan_up (S (length v)) first pivot v;
      match last with
      | 0 => None
      | S last =>
          last ← scan_down last pivot v;
          if negb (first <? last) then Some (first, v)
          else v ← iter_swap first last v;
               unguarded_partition fuel (S first) last pivot v
      end
  end.

(** [__unguarded_partition_pivot] *)
Definition unguarded_partition_pivot (first last : nat) (v : list A)
  : option (nat * list A) :=
  let mid := first + (last - first) / 2 in
  v ← move_median_to_first first (first + 1) mid (last - 1) v;
  unguarded_partition (S (length v)) (first + 1) last first v.

(** *** Heap routines ([bits/stl_heap.h])

    Their indices are of the signed type [_Distance]: they are kept in
    [Z] and divided with truncation. *)

Definition rd (v : list A) (first : nat) (d : Z) : option A :=
  if (d <? 0)%Z then None else v !! (first + Z.to_nat d).

Definition wr (v : list A) (first : nat) (d : Z) (x : A) : option (list A) :=
  if (d <? 0)%Z then None
  else if first + Z.to_nat d <? length v then Some (<[first + Z.to_nat d := x]> v)
  else None.

(** [__push_heap] *)
Fixpoint push_heap (fuel : nat) (first : nat) (holeIndex topIndex : Z) (value : A)
    (v : list A) : option (list A) :=
  let parent := ((holeIndex - 1) ÷ 2)%Z in
  match fuel with
  | 0 => None
  | S fuel =>
      if (holeIndex >? topIndex)%Z then
        vp ← rd v first parent;
        if comp vp value then
          v ← wr v first holeIndex vp;
          push_heap fuel first parent topIndex value v
        else wr v first holeIndex value
      else wr v first holeIndex value
  end.

(** The first loop of [__adjust_heap]; it returns the hole and the child. *)
Fixpoint adjust_heap_down (fuel : nat) (first : nat) (holeIndex secondChild len : Z)
    (v : list A) : option (Z * Z * list A) :=
  match fuel with
  | 0 => None
  | S fuel =>
      if (secondChild <? (len - 1) ÷ 2)%Z then
        let secondChild := (2 * (secondChild + 1))%Z in
        c1 ← rd v first secondChild; c2 ← rd v first (secondChild - 1)%Z;
        let secondChild := if comp c1 c2 then (secondChild - 1)%Z else secondChild in
        c ← rd v first secondChild;
        v ← wr v first holeIndex c;
        adjust_heap_down fuel first secondChild secondChild len v
      else Some (holeIndex, secondChild, v)
  end.

(** [__adjust_heap] *)
Definition adjust_heap (first : nat) (holeIndex len : Z) (value : A) (v : list A)
  : option (list A) :=
  let topIndex := holeIndex in
  '(holeIndex, secondChild, v) ←
      adjust_heap_down (S (length v)) first holeIndex holeIndex len v;
  '(holeIndex, v) ←
      (if (Z.land len 1 =? 0)%Z && (secondChild =? (len - 2) ÷ 2)%Z then
         let secondChild := (2 * (secondChild + 1))%Z in
         c ← rd v first (secondChild - 1)%Z;
         v ← wr v first holeIndex c;
         Some ((secondChild - 1)%Z, v)
       else Some (holeIndex, v));
  push_heap (S (length v)) first holeIndex topIndex value v.

(** [__pop_heap] *)
Definition pop_heap (first last result : nat) (v : list A) : option (list A) :=
  value ← v !! result; top ← v !! first;
  adjust_heap first 0 (Z.of_nat last - Z.of_nat first) value (<[result := top]> v).

(** The loop of [__make_heap], from [parent] down to 0. *)
Fixpoint make_heap_from (parent : nat) (first : nat) (len : Z) (v : list A)
  : option (list A) :=
  value ← v !! (first + parent);
  v ← adjust_heap first (Z.of_nat parent) len value v;
  match parent with
  | 0 => Some v
  | S parent => make_heap_from parent first len v
  end.

(** [__make_heap] *)
Definition make_heap (first last : nat) (v : list A) : option (list A) :=
  if last - first <? 2 then Some v
  else make_heap_from ((last - first - 2) / 2) first (Z.of_nat (last - first)) v.

(** The loop of [__heap_select], over [n] positions from [i]. *)
Fixpoint heap_select_from (n : nat) (first middle i : nat) (v : list A)
  : option (list A) :=
  match n with
  | 0 => Some v
  | S n =>
      x ← v !! i; top ← v !! first;
      v ← (if comp x top then pop_heap first middle i v else Some v);
      heap_select_from n first middle (S i) v
  end.

(** [__heap_select] *)
Definition heap_select (first middle last : nat) (v : list A) : option (list A) :=
  v ← make_heap first middle v;
  heap_select_from (last - middle) first middle middle v.

(** [__sort_heap]: [n] is [last - first]. *)
Fixpoint sort_heap (n : nat) (first : nat) (v : list A) : option (list A) :=
  match n with
  | 0 => Some v
  | S n' =>
      if 1 <? n then
        v ← pop_heap first (first + n') (first + n') v;
        sort_heap n' first v
      else Some v
  end.

(** [__partial_sort] *)
Definition partial_sort (first middle last : nat) (v : list A) : option (list A) :=
  v ← heap_select first middle last v;
  sort_heap (middle - first) first v.

(** *** Insertion sort *)

(** The loop of [__unguarded_linear_insert]: [next] is [last - 1]. *)
Fixpoint linear_insert_loop (val : A) (last : nat) (v : list A) : option (list A) :=
  match last with
  | 0 => None
  | S next =>
      y ← v !! next;
      if comp val y
      then linear_insert_loop val next (<[last := y]> v)
      else Some (<[last := val]> v)
  end.

(** [__unguarded_linear_insert] *)
Definition unguarded_linear_insert (last : nat) (v : list A) : option (list A) :=
  val ← v !! last; linear_insert_loop val last v.

(** [std::move_backward] of [n] elements ending before [last] to the
    range ending before [d_last]. *)
Fixpoint move_backward (n last d_last : nat) (v : list A) : option (list A) :=
  match n with
  | 0 => Some v
  | S n =>
      match last, d_last with
      | S last, S d_last =>
          x ← v !! last;
          if d_last <? length v then move_backward n last d_last (<[d_last := x]> v)
          else None
      | _, _ => None
      end
  end.

(** The loop of [__insertion_sort]: [n] positions from [i]. *)
Fixpoint insertion_sort_from (n first i : nat) (v : list A) : option (list A) :=
  match n with
  | 0 => Some v
  | S n =>
      x ← v !! i; f ← v !! first;
      v ← (if comp x f
           then v ← move_backward (i - first) i (i + 1) v; Some (<[first := x]> v)
           else unguarded_linear_insert i v);
      insertion_sort_from n first (S i) v
  end.

(** [__insertion_sort] *)
Definition insertion_sort (first last : nat) (v : list A) : option (list A) :=
  if first =? last then Some v
  else insertion_sort_from (last - (first + 1)) first (first + 1) v.

(** [__unguarded_insertion_sort]: [n] positions from [i]. *)
Fixpoint unguarded_insertion_sort (n i : nat) (v : list A) : option (list A) :=
  match n with
  | 0 => Some v
  | S n => v ← unguarded_linear_insert i v; unguarded_insertion_sort n (S i) v
  end.

(** [__final_insertion_sort] *)
Definition final_insertion_sort (first last : nat) (v : list A) : option (list A) :=
  if S_threshold <? last - first then
    v ← insertion_sort first (first + S_threshold) v;
    unguarded_insertion_sort (last - (first + S_threshold)) (first + S_threshold) v
  else insertion_sort first last v.

(** [__introsort_loop]: every turn of its loop and every recursive call
    lowers [depth_limit]. *)
Fixpoint introsort_loop (depth_limit first last : nat) (v : list A) : option (list A) :=
  if S_threshold <? last - first then
    match depth_limit with
    | 0 => partial_sort first last last v
    | S depth_limit =>
        '(cut, v) ← unguarded_partition_pivot first last v;
        v ← introsort_loop depth_limit cut last v;
        introsort_loop depth_limit first cut v
    end
  else Some v.

(** [__sort] *)
Definition sort (first last : nat) (v : list A) : option (list A) :=
  if first =? last then Some v
  else
    v ← introsort_loop (Nat.log2 (last - first) * 2) first last v;
    final_insertion_sort first last v.

(** [std::sort(v.begin(), v.end(), comp)] *)
Definition std_sort (v : list A) : option (list A) := sort 0 (length v) v.
End std_sort.

(** ** The insertion sort of [std::sort], on lists

    The same steps as [__insertion_sort], written on the list of the
    elements already placed and the list of those still to place. *)

Section insertion_sort_as_lists.
Context {A : Type}.
Variable comp : A -> A -> bool.

(** The result of [__unguarded_linear_insert] as a list: [before] holds the
    elements to the left of the hole, nearest first, and [after] those
    already moved to its right. *)
Fixpoint linear_insert_list (x : A) (before after : list A) : option (list A) :=
  match before with
  | [] => None
  | y :: before' =>
      if comp x y then linear_insert_list x before' (y :: after)
      else Some (rev before ++ x :: after)
  end.

(** One turn of the loop of [__insertion_sort] on the sorted part [s]. *)
Definition insert_list (x : A) (s : list A) : option (list A) :=
  match s with
  | [] => None
  | f :: _ => if comp x f then Some (x :: s) else linear_insert_list x (rev s) []
  end.

Fixpoint insertion_sort_list (s rest : list A) : option (list A) :=
  match rest with
  | [] => Some s
  | x :: rest' => s' ← insert_list x s; insertion_sort_list s' rest'
  end.

(** Two elements that the comparison does not tell apart. *)
Definition equiv_by (a b : A) : bool := negb (comp a b) && negb (comp b a).
End insertion_sort_as_lists.

(** What [std::sort] asks of its comparison: a strict weak ordering, here
    on the elements that satisfy [P]. *)
Record strict_weak_order {A : Type} (P : A -> Prop) (comp : A -> A -> bool) : Prop :=
  { swo_irrefl : forall a, P a -> comp a a = false;
    swo_trans : forall a b c, P a -> P b -> P c ->
      comp a b = true -> comp b c = true -> comp a c = true;
    swo_equiv_trans : forall a b c, P a -> P b -> P c ->
      equiv_by comp a b = true -> equiv_by comp b c = true ->
      equiv_by comp a c = true }.

(** [a] may stand before [b] in a sorted sequence. *)
Definition not_after {A : Type} (comp : A -> A -> bool) (a b : A) : Prop :=
  comp b a = false.

(** ** Lines 147-252: the session loop of [main] *)

(** The addresses of the three maps that [main] declares. *)
Definition main_prevTimes : nat := 0.
Definition main_curTimes : nat := 1.
Definition main_tmp : nat := 2.

Record Session := { maps : Store; prevTick : Z; sortByCPU : bool }.

Definition refreshSec : Z := 2.
Definition topN : nat := 25.

(** Lines 153-160: the declarations and the initial snapshot, whose list is
    dropped; [tmp] dies at the end of its block. *)
Definition main_init (os : OS) (tick : Z) : Session :=
  let σ : Store := <[main_tmp := ∅]> (<[main_curTimes := ∅]> (<[main_prevTimes := ∅]> ∅)) in
  let σ := snd (SnapshotProcesses os main_tmp tick tick main_prevTimes σ) in
  {| maps := delete main_tmp σ; prevTick := tick; sortByCPU := true |}.

(** Lines 167-168: [curTimes.clear()] and the call. *)
Definition snapshot_call (os : OS) (curTick : Z) (s : Session) : list ProcInfo * Store :=
  let σ := <[main_curTimes := ∅]> (maps s) in
  SnapshotProcesses os main_prevTimes (prevTick s) curTick main_curTimes σ.

(** Line 170: [prevTimes.swap(curTimes)]. *)
Definition swap_maps (a b : nat) (σ : Store) : Store :=
  <[b := σ !!! a]> (<[a := σ !!! b]> σ).

(** Lines 165-171: one sample and the replacement of the rolling state. *)
Definition sample (os : OS) (curTick : Z) (s : Session) : list ProcInfo * Session :=
  let '(procs, σ) := snapshot_call os curTick s in
  (procs, {| maps := swap_maps main_prevTimes main_curTimes σ;
             prevTick := curTick;
             sortByCPU := sortByCPU s |}).

(** Lines 176-177 and 181-182: the two comparators. *)
Definition by_cpu (a b : ProcInfo) : bool := dgt (cpuPercent a) (cpuPercent b).
Definition by_pid (a b : ProcInfo) : bool := pid a <? pid b.

(** Lines 174-183. *)
Definition sort_procs (sortByCPU : bool) (procs : list ProcInfo) : option (list ProcInfo) :=
  if sortByCPU then std_sort by_cpu procs else std_sort by_pid procs.

(** What the program writes to the console, one event per message. *)
Inductive Output :=
| Header (refreshSec : Z) (sortByCPU : bool)
| Row (pid : Z) (name : string) (cpuPercent : double)
| Prompt
| Terminated (pid : Z)
| FailedToTerminate (pid err : Z)
| CannotOpen (pid err : Z)
| InvalidPid
| PressEnter
| Exiting.

(** Lines 121-136: [PrintProcesses]. *)
Definition PrintProcesses (procs : list ProcInfo) (topN : nat) : list Output :=
  map (fun p =>
         let name :=
           if (38 <? String.length (name p))%nat
           then (substring 0 37 (name p) ++ "...")%string
           else name p in
         Row (pid p) name (cpuPercent p))
      (take topN procs).

(** Lines 138-145: [trim]. *)
Definition blank : list ascii :=
  [" "%char; ascii_of_nat 9; ascii_of_nat 13; ascii_of_nat 10].

Definition one_of (chars : list ascii) (c : ascii) : bool := existsb (Ascii.eqb c) chars.

Fixpoint find_first_not_of (chars : list ascii) (i : nat) (s : string) : option nat :=
  match s with
  | EmptyString => None
  | String c s' =>
      if one_of chars c then find_first_not_of chars (S i) s' else Some i
  end.

Fixpoint find_last_not_of (chars : list ascii) (i : nat) (s : string) : option nat :=
  match s with
  | EmptyString => None
  | String c s' =>
      match find_last_not_of chars (S i) s' with
      | Some j => Some j
      | None => if one_of chars c then None else Some i
      end
  end.

Definition trim (s : string) : string :=
  match find_first_not_of blank 0 s with
  | None => ""%string
  | Some a =>
      match find_last_not_of blank 0 s with
      | None => ""%string
      | Some b => substring a (b - a + 1) s
      end
  end.

(** [std::isdigit] in the C locale. *)
Definition isdigit (c : ascii) : bool :=
  let n := Z.of_nat (nat_of_ascii c) in (48 <=? n) && (n <=? 57).

(** [std::stoul] in base 10 with a 32-bit [unsigned long]: blanks are
    skipped, a sign is accepted, the digits that follow are read, and the
    rest of the string is ignored. *)
Inductive stoul_result :=
| stoul_value (n : Z)
| invalid_argument
| out_of_range.

Definition isspace (c : ascii) : bool :=
  one_of [" "%char; ascii_of_nat 9; ascii_of_nat 10; ascii_of_nat 11;
          ascii_of_nat 12; ascii_of_nat 13] c.

Fixpoint skip_space (s : string) : string :=
  match s with
  | String c s' => if isspace c then skip_space s' else s
  | EmptyString => s
  end.

Fixpoint read_digits (s : string) (acc : option Z) : option Z :=
  match s with
  | String c s' =>
      if isdigit c
      then read_digits s' (Some (10 * default 0 acc + (Z.of_nat (nat_of_ascii c) - 48)))
      else acc
  | EmptyString => acc
  end.

Definition stoul (s : string) : stoul_result :=
  let s := skip_space s in
  let '(negative, s) :=
    match s with
    | String "-" s' => (true, s')
    | String "+" s' => (false, s')
    | _ => (false, s)
    end in
  match read_digits s None with
  | None => invalid_argument
  | Some n =>
      if n >? ULONG_MAX then out_of_range
      else stoul_value (if negative then wrap32 (- n) else n)
  end.

(** The calls made to end a process (lines 226-237). *)
Record TerminateAPI :=
  { OpenProcess_TERMINATE : Z -> bool;     (* is the handle non-null? *)
    TerminateProcess : Z -> bool;
    GetLastError : Z }.

Inductive Control := Continue | Break.

(** [std::getline] on the console input. *)
Definition getline (stdin : list string) : string * list string :=
  match stdin with
  | [] => (""%string, [])
  | line :: stdin' => (line, stdin')
  end.

(** Lines 204-219: the text that names the process to end. *)
Definition pidStr (cmd : string) : string :=
  match cmd with
  | String c _ =>
      if Ascii.eqb c "k" || Ascii.eqb c "K"
      then trim (substring 1 (String.length cmd - 1) cmd)
      else if forallb isdigit (list_ascii_of_string cmd) then cmd else ""%string
  | EmptyString => ""%string
  end.

(** Lines 221-247. *)
Definition kill (api : TerminateAPI) (pidStr : string) (stdin : list string)
  : list Output * list string :=
  match pidStr with
  | EmptyString => ([], stdin)
  | _ =>
      let report :=
        match stoul pidStr with
        | stoul_value n =>
            let pid := wrap32 n in
            if OpenProcess_TERMINATE api pid then
              if TerminateProcess api pid then Terminated pid
              else FailedToTerminate pid (GetLastError api)
            else CannotOpen pid (GetLastError api)
        | _ => InvalidPid
        end in
      ([report; PressEnter], snd (getline stdin))
  end.

(** Lines 189-247: one command, read after the table is shown. *)
Definition command (api : TerminateAPI) (stdin : list string) (s : Session)
  : Control * Session * list Output * list string :=
  let '(cmd, stdin) := getline stdin in
  let cmd := trim cmd in
  if String.eqb cmd "" then (Continue, s, [Prompt], stdin)
  else if String.eqb cmd "q" || String.eqb cmd "Q" then (Break, s, [Prompt], stdin)
  else if String.eqb cmd "s" || String.eqb cmd "S" then
    (Continue,
     {| maps := maps s; prevTick := prevTick s; sortByCPU := negb (sortByCPU s) |},
     [Prompt], stdin)
  else
    let '(out, stdin) := kill api (pidStr cmd) stdin in
    (Continue, s, Prompt :: out, stdin).

(** Lines 162-248: one turn of the loop.  The result is [None] when
    [std::sort] leaves the vector. *)
Definition iteration (os : OS) (api : TerminateAPI) (curTick : Z)
    (stdin : list string) (s : Session)
  : option (Control * Session * list Output * list string) :=
  let '(procs, s') := sample os curTick s in
  procs ← sort_procs (sortByCPU s) procs;
  let shown := Header refreshSec (sortByCPU s) :: PrintProcesses procs topN in
  let '(ctl, s'', out, stdin) := command api stdin s' in
  Some (ctl, s'', (shown ++ out)%list, stdin).

(** Lines 162-251: the loop, run on the readings of the successive cycles
    (the snapshot oracle and the tick of each).  [Sleep] and the clearing of
    the screen leave no trace here.  The output ends with the farewell when a
    command breaks the loop; when the readings run out the loop is still
    going. *)
Fixpoint main_loop (cycles : list (OS * Z)) (api : TerminateAPI)
    (stdin : list string) (s : Session) : option (list Output) :=
  match cycles with
  | [] => Some []
  | (os, curTick) :: cycles =>
      '(ctl, s, out, stdin) ← iteration os api curTick stdin s;
      match ctl with
      | Break => Some (out ++ [Exiting])%list
      | Continue => rest ← main_loop cycles api stdin s; Some (out ++ rest)%list
      end
  end.

(** Lines 147-252: [main], from the first tick reading on. *)
Definition main (os0 : OS) (tick0 : Z) (cycles : list (OS * Z)) (api : TerminateAPI)
    (stdin : list string) : option (list Output) :=
  main_loop cycles api stdin (main_init os0 tick0).

(** ** The order of doubles *)

(** The place of a double in the order of [SFcompare]: the sign class, then
    exponent and mantissa, reversed for negative numbers. *)
Definition rank (x : double) : Z * Z * Z :=
  match x with
  | S754_infinity true => (-2, 0, 0)
  | S754_finite true m e => (-1, - e, - Zpos m)
  | S754_zero _ => (0, 0, 0)
  | S754_nan => (0, 0, 0)
  | S754_finite false m e => (1, e, Zpos m)
  | S754_infinity false => (2, 0, 0)
  end.

Definition lex_lt (a b : Z * Z * Z) : Prop :=
  a.1.1 < b.1.1
  \/ (a.1.1 = b.1.1 /\ (a.1.2 < b.1.2 \/ (a.1.2 = b.1.2 /\ a.2 < b.2))).

(** The entries of a list whose percentage is a number. *)
Definition not_nan (p : ProcInfo) : Prop := is_nan (cpuPercent p) = false.

(** Entries that stand for a percentage or for an identifier when entries
    are compared. *)
Definition with_percent (c : double) : ProcInfo :=
  {| pid := 0; name := ""; cpuPercent := c |}.
Definition with_pid (k : Z) : ProcInfo :=
  {| pid := k; name := ""; cpuPercent := d0 |}.

(** Seventeen processes that used no CPU time, as in a first cycle. *)
Definition idle (k : Z) : ProcInfo :=
  {| pid := k; name := "idle.exe"; cpuPercent := d0 |}.
Definition seventeen_idle : list ProcInfo :=
  map idle [1; 2; 3; 4; 5; 6; 7; 8; 9; 10; 11; 12; 13; 14; 15; 16; 17].

(** ** A sample host

    Four processes on a 4-core machine, sampled at ticks 5000 and 6000:
    the first cannot be opened, the second went from 500,000 to 1,500,000
    units of CPU time, the third is new, and the counter of the fourth is
    below the one remembered for its identifier.  The map of the previous
    sample also remembers identifier 999, which is gone. *)

Definition filetime (n : Z) : FILETIME :=
  {| dwLowDateTime := n mod 2 ^ 32; dwHighDateTime := n / 2 ^ 32 |}.

Definition handle_with (kernel user : Z) : HANDLE :=
  {| GetProcessTimes :=
       Some {| ftCreation := filetime 0; ftExit := filetime 0;
               ftKernel := filetime kernel; ftUser := filetime user |} |}.

Definition demo_os : OS :=
  {| CreateToolhelp32Snapshot :=
       Some [ {| th32ProcessID := 4; szExeFile := "System" |};
              {| th32ProcessID := 812; szExeFile := "svchost.exe" |};
              {| th32ProcessID := 1520; szExeFile := "notepad.exe" |};
              {| th32ProcessID := 2044; szExeFile := "calc.exe" |} ];
     OpenProcess := fun _ pid =>
       if pid =? 4 then None
       else if pid =? 812 then Some (handle_with 1000000 500000)
       else if pid =? 1520 then Some (handle_with 200 100)
       else Some (handle_with 50 0);
     dwNumberOfProcessors := 4 |}.

Definition demo_store : Store :=
  <[main_curTimes := ∅]>
    (<[main_prevTimes := <[2044 := 900]> (<[999 := 77]> (<[812 := 500000]> ∅))]> ∅).

Definition demo_session : Session :=
  {| maps := demo_store; prevTick := 5000; sortByCPU := true |}.

(** ** Words for the statements on commands and text *)

(** The characters of a string, in order. *)
Definition chars (s : string) : list ascii := list_ascii_of_string s.

(** The characters that [trim] removes. *)
Definition is_blank (c : ascii) : Prop := one_of blank c = true.

(** The number written by a run of decimal digits. *)
Definition digits_value (l : list ascii) : Z :=
  fold_left (fun acc c => 10 * acc + (Z.of_nat (nat_of_ascii c) - 48)) l 0.

(** A text of decimal digits, and at least one. *)
Definition all_digits (s : string) : Prop :=
  s <> ""%string /\ forallb isdigit (chars s) = true.

(** What a terminate request for process [n] prints. *)
Definition terminate_report (api : TerminateAPI) (n : Z) : Output :=
  if n >? ULONG_MAX then InvalidPid
  else if OpenProcess_TERMINATE api n then
         if TerminateProcess api n then Terminated n
         else FailedToTerminate n (GetLastError api)
       else CannotOpen n (GetLastError api).

(** The sample host one cycle earlier, when only two of its processes were
    running. *)
Definition demo_os_earlier : OS :=
  {| CreateToolhelp32Snapshot :=
       Some [ {| th32ProcessID := 4; szExeFile := "System" |};
              {| th32ProcessID := 812; szExeFile := "svchost.exe" |} ];
     OpenProcess := fun _ pid =>
       if pid =? 812 then Some (handle_with 300000 200000) else None;
     dwNumberOfProcessors := 4 |}.

Definition demo_api : TerminateAPI :=
  {| OpenProcess_TERMINATE := fun pid => pid =? 812;
     TerminateProcess := fun _ => true;
     GetLastError := 87 |}.

(** * Properties *)

(** ** Elapsed ticks *)

Lemma wrap32_small z : is_u32 z -> wrap32 z = z.
Proof. unfold is_u32, wrap32. intros H. apply Z.mod_small. lia. Qed.

Lemma wrap32_range z : is_u32 (wrap32 z).
Proof. unfold is_u32, wrap32. apply Z.mod_pos_bound. lia. Qed.

Lemma wrap64_range z : is_u64 (wrap64 z).
Proof. unfold is_u64, wrap64. apply Z.mod_pos_bound. lia. Qed.

(** The source expression never leaves the 32-bit range: no reduction
    takes effect, and the result is a tick count again. *)
Lemma deltaMs_formula prev cur :
  is_u32 prev -> is_u32 cur ->
  deltaMs prev cur = (if cur >=? prev then cur - prev else MAX_TICK - prev + cur)
  /\ is_u32 (deltaMs prev cur).
Proof.
  intros Hp Hc. unfold deltaMs, MAX_TICK.
  destruct (cur >=? prev) eqn:E.
  - rewrite wrap32_small; unfold is_u32 in *; lia.
  - rewrite (wrap32_small (_ - prev)); [|unfold is_u32 in *; lia].
    rewrite wrap32_small; unfold is_u32 in *; lia.
Qed.

Lemma deltaMs_range prev cur : is_u32 (deltaMs prev cur).
Proof. unfold deltaMs. destruct (cur >=? prev); apply wrap32_range. Qed.

(** After a wrap of the counter the result is one less than the number of
    ticks that went by. *)
Lemma deltaMs_after_wrap prev cur :
  is_u32 prev -> is_u32 cur -> cur < prev ->
  deltaMs prev cur = wrap32 (cur - prev) - 1.
Proof.
  intros Hp Hc Hlt. destruct (deltaMs_formula prev cur Hp Hc) as [-> _].
  destruct (cur >=? prev) eqn:E; [lia|].
  unfold wrap32, MAX_TICK, is_u32 in *.
  replace (cur - prev) with (cur - prev + 2 ^ 32 + (-1) * 2 ^ 32) by lia.
  rewrite Z.mod_add by lia. rewrite Z.mod_small; lia.
Qed.

(** C1 (code defect).  At [prevTick = 0xFFFFFFF0], [curTick = 0x0000000A]
    the expression of line 74 gives 25, while 26 ticks went by (the
    difference modulo 2^32); and a wrap from [0xFFFFFFFF] to [0] counts as
    no time at all. *)
Theorem deltaMs_wraparound_off_by_one :
  deltaMs 0xFFFFFFF0 0x0000000A = 25
  /\ wrap32 (0x0000000A - 0xFFFFFFF0) = 26
  /\ deltaMs 0xFFFFFFFF 0 = 0.
Proof. repeat split; reflexivity. Qed.

(** ** Doubles *)

(** The specification of floats is written with the integer operations of
    the core library; they are the ones of [Z]. *)
Ltac std_Z :=
  change IntDef.Z.max with Z.max in *;
  change IntDef.Z.min with Z.min in *;
  change IntDef.Z.sub with Z.sub in *;
  change IntDef.Z.add with Z.add in *;
  change IntDef.Z.mul with Z.mul in *;
  change IntDef.Z.leb with Z.leb in *;
  change IntDef.Z.eqb with Z.eqb in *;
  change IntDef.Z.div_eucl with Z.div_eucl in *;
  change IntDef.Z.shiftl with Z.shiftl in *.

Lemma digits2_pos_size p : digits2_pos p = Pos.size p.
Proof. induction p; simpl; congruence. Qed.

Lemma Zdigits2_log2 p : Zpos (digits2_pos p) = Z.log2 (Zpos p) + 1.
Proof.
  rewrite digits2_pos_size. destruct p; simpl; try lia.
Qed.

Lemma Zdigits2_pos_log2 m : 0 < m -> Zdigits2 m = Z.log2 m + 1.
Proof. destruct m; try lia. intros _. simpl. apply Zdigits2_log2. Qed.

Lemma shr_1_m mrs : 0 <= shr_m mrs -> shr_m (shr_1 mrs) = shr_m mrs / 2.
Proof.
  destruct mrs as [m r s]. simpl. intros Hm.
  destruct m as [|p|p]; [done| |lia].
  destruct p; simpl.
  - rewrite Pos2Z.inj_xI. apply Z.div_unique with 1; lia.
  - rewrite Pos2Z.inj_xO. apply Z.div_unique with 0; lia.
  - done.
Qed.

Lemma iter_pos_shr_1_m p mrs :
  0 <= shr_m mrs -> shr_m (SpecFloat.iter_pos shr_1 p mrs) = shr_m mrs / 2 ^ Zpos p.
Proof.
  revert mrs. induction p as [p IH|p IH|]; intros mrs Hm; simpl.
  - assert (Hp : 0 < 2 ^ Zpos p) by (apply Z.pow_pos_nonneg; lia).
    assert (H1 : 0 <= shr_m (shr_1 mrs)).
    { rewrite shr_1_m by done. apply Z.div_pos; lia. }
    assert (H2 : 0 <= shr_m (SpecFloat.iter_pos shr_1 p (shr_1 mrs))).
    { rewrite IH by done. apply Z.div_pos; lia. }
    rewrite IH, IH, shr_1_m by done.
    rewrite !Z.div_div by lia. f_equal.
    replace (Zpos p~1) with (1 + Zpos p + Zpos p) by lia.
    rewrite !Z.pow_add_r by lia. lia.
  - assert (Hp : 0 < 2 ^ Zpos p) by (apply Z.pow_pos_nonneg; lia).
    assert (H2 : 0 <= shr_m (SpecFloat.iter_pos shr_1 p mrs)).
    { rewrite IH by done. apply Z.div_pos; lia. }
    rewrite IH, IH by done. rewrite Z.div_div by lia. f_equal.
    replace (Zpos p~0) with (Zpos p + Zpos p) by lia.
    rewrite !Z.pow_add_r by lia. lia.
  - rewrite shr_1_m by done. done.
Qed.

(** One alignment step of the rounding: the mantissa stays positive, is cut
    to at most 53 bits, and the magnitude is kept. *)
Lemma shr_fexp_mag m e l :
  0 < m -> 1 <= Zdigits2 m + e <= 1000 ->
  exists mrs' e',
    shr_fexp dprec demax m e l = (mrs', e')
    /\ 0 < shr_m mrs'
    /\ Zdigits2 (shr_m mrs') + e' = Zdigits2 m + e
    /\ Zdigits2 (shr_m mrs') <= 53.
Proof.
  intros Hm Hmag. unfold shr_fexp, fexp, emin, dprec, demax.
  replace (Z.max (Zdigits2 m + e - 53) (3 - 1024 - 53)) with (Zdigits2 m + e - 53) by lia.
  replace (Zdigits2 m + e - 53 - e) with (Zdigits2 m - 53) by lia.
  assert (Hrec : shr_m (shr_record_of_loc m l) = m).
  { destruct l as [|[]]; done. }
  unfold shr. destruct (Zdigits2 m - 53) as [|n|n] eqn:Hn.
  - eexists _, _. split; [done|]. rewrite Hrec. lia.
  - eexists _, _. split; [done|].
    rewrite iter_pos_shr_1_m by lia. rewrite Hrec.
    pose proof (Zdigits2_pos_log2 m Hm) as Hdm.
    assert (Hlog : Z.log2 (m / 2 ^ Zpos n) = Z.log2 m - Zpos n).
    { rewrite <- Z.shiftr_div_pow2 by lia. rewrite Z.log2_shiftr by lia. lia. }
    assert (Hq : 0 < m / 2 ^ Zpos n).
    { apply Z.div_str_pos. split; [apply Z.pow_pos_nonneg; lia|].
      apply Z.log2_le_pow2; lia. }
    rewrite (Zdigits2_pos_log2 _ Hq). lia.
  - eexists _, _. split; [done|]. rewrite Hrec. lia.
Qed.

Lemma round_nearest_even_bounds m l : m <= round_nearest_even m l <= m + 1.
Proof. destruct l as [|[]]; simpl; try lia. destruct (Z.even m); lia. Qed.

Lemma Zdigits2_succ m r : 0 < m -> m <= r <= m + 1 -> Zdigits2 m <= Zdigits2 r <= Zdigits2 m + 1.
Proof.
  intros Hm Hr. rewrite !Zdigits2_pos_log2 by lia.
  assert (Z.log2 m <= Z.log2 r) by (apply Z.log2_le_mono; lia).
  assert (Z.log2 r <= Z.log2 (m + 1)) by (apply Z.log2_le_mono; lia).
  pose proof (Z.log2_succ_le m). unfold Z.succ in *. lia.
Qed.

(** Rounding a positive number of magnitude between 1 and 970 gives a
    positive finite double of the same magnitude or the next. *)
Lemma binary_round_aux_mag mx ex lx :
  0 < mx -> 1 <= Zdigits2 mx + ex <= 970 ->
  exists m e,
    binary_round_aux dprec demax false mx ex lx = S754_finite false m e
    /\ Zdigits2 mx + ex <= Zpos (digits2_pos m) + e <= Zdigits2 mx + ex + 1.
Proof.
  intros Hm Hmag. unfold binary_round_aux.
  destruct (shr_fexp_mag mx ex lx Hm) as (mrs1 & e1 & -> & Hm1 & Hmag1 & Hd1); [lia|].
  set (r := round_nearest_even (shr_m mrs1) (loc_of_shr_record mrs1)).
  pose proof (round_nearest_even_bounds (shr_m mrs1) (loc_of_shr_record mrs1)) as Hr.
  fold r in Hr.
  pose proof (Zdigits2_succ _ r Hm1 Hr) as Hdr.
  destruct (shr_fexp_mag r e1 loc_Exact) as (mrs2 & e2 & -> & Hm2 & Hmag2 & Hd2); [lia|lia|].
  destruct (shr_m mrs2) as [|m2|] eqn:E; [lia| |lia].
  assert (Hd : 1 <= Zdigits2 (Zpos m2)) by (simpl; lia).
  replace (e2 <=? demax - dprec) with true by (unfold demax, dprec; lia).
  exists m2, e2. split; [done|]. simpl in *. lia.
Qed.

Lemma shr_nonneg mrs e n : 0 <= shr_m mrs -> 0 <= shr_m (fst (shr mrs e n)).
Proof.
  intros H. unfold shr. destruct n; simpl; try done.
  rewrite iter_pos_shr_1_m by done. apply Z.div_pos; [done|].
  apply Z.pow_pos_nonneg; lia.
Qed.

Lemma shr_fexp_nonneg m e l : 0 <= m -> 0 <= shr_m (fst (shr_fexp dprec demax m e l)).
Proof.
  intros H. unfold shr_fexp. apply shr_nonneg. by destruct l as [|[]].
Qed.

(** Rounding a mantissa that is not negative gives no NaN and no sign. *)
Lemma binary_round_aux_nonneg mx ex lx :
  0 <= mx -> nonneg (binary_round_aux dprec demax false mx ex lx).
Proof.
  intros Hm. unfold binary_round_aux.
  pose proof (shr_fexp_nonneg mx ex lx Hm) as H1.
  destruct (shr_fexp dprec demax mx ex lx) as [mrs1 e1]. simpl in H1.
  pose proof (round_nearest_even_bounds (shr_m mrs1) (loc_of_shr_record mrs1)) as Hr.
  pose proof (shr_fexp_nonneg (round_nearest_even (shr_m mrs1) (loc_of_shr_record mrs1))
                e1 loc_Exact) as H2.
  destruct (shr_fexp dprec demax _ e1 loc_Exact) as [mrs2 e2]. simpl in H2.
  destruct (shr_m mrs2) as [|m2|m2]; [done| |lia].
  by destruct (e2 <=? demax - dprec).
Qed.

Lemma nonneg_not_nan x : nonneg x -> is_nan x = false.
Proof. by destruct x as [[]|[]| |[]]. Qed.

Lemma nonneg_ge_0 x : nonneg x -> dle d0 x = true /\ dlt x d0 = false.
Proof. by destruct x as [[]|[]| |[]]. Qed.

Lemma pos_mag_nonneg lo hi x : pos_mag lo hi x -> nonneg x.
Proof. by intros (m & e & -> & _). Qed.

Lemma pos_mag_weaken lo hi lo' hi' x :
  pos_mag lo hi x -> lo' <= lo -> hi <= hi' -> pos_mag lo' hi' x.
Proof. intros (m & e & -> & H) ? ?. exists m, e. split; [done|lia]. Qed.

Lemma digits2_pos_iter_xO p d :
  Zpos (digits2_pos (Pos.iter xO p d)) = Zpos (digits2_pos p) + Zpos d.
Proof.
  induction d as [|d IH] using Pos.peano_ind.
  - simpl. lia.
  - rewrite Pos.iter_succ. simpl. lia.
Qed.

(** The cast of a positive integer below [2^k]. *)
Lemma double_of_Z_mag z k :
  1 <= z < 2 ^ k -> 0 <= k <= 900 -> pos_mag 1 (k + 1) (double_of_Z z).
Proof.
  intros Hz Hk. destruct z as [|p|p]; [lia| |lia].
  unfold double_of_Z, binary_normalize, binary_round.
  assert (Hd : 1 <= Zpos (digits2_pos p) <= k).
  { rewrite Zdigits2_log2. split; [pose proof (Z.log2_nonneg (Zpos p)); lia|].
    assert (Z.log2 (Zpos p) < k); [|lia]. apply Z.log2_lt_pow2; lia. }
  assert (Hal : exists mz ez,
             shl_align p 0 (fexp dprec demax (Zpos (digits2_pos p) + 0)) = (mz, ez)
             /\ Zpos (digits2_pos mz) + ez = Zpos (digits2_pos p)).
  { unfold shl_align. destruct (_ - 0) as [|d|d] eqn:Hsub.
    - eexists _, _. split; [done|lia].
    - eexists _, _. split; [done|lia].
    - eexists _, _. split; [done|]. rewrite digits2_pos_iter_xO.
      revert Hsub. unfold fexp, emin, dprec, demax. std_Z. lia. }
  destruct Hal as (mz & ez & -> & Hmag).
  destruct (binary_round_aux_mag (Zpos mz) ez loc_Exact) as (m & e & -> & H);
    [lia|simpl; lia|].
  exists m, e. split; [done|]. simpl in H. lia.
Qed.

Lemma double_of_Z_0 : double_of_Z 0 = d0.
Proof. reflexivity. Qed.

Lemma digits2_pos_mul p q :
  Zpos (digits2_pos p) + Zpos (digits2_pos q) - 1
  <= Zpos (digits2_pos (p * q))
  <= Zpos (digits2_pos p) + Zpos (digits2_pos q).
Proof.
  rewrite !Zdigits2_log2. rewrite Pos2Z.inj_mul.
  pose proof (Z.log2_mul_below (Zpos p) (Zpos q)).
  pose proof (Z.log2_mul_above (Zpos p) (Zpos q)). lia.
Qed.

(** The product of two positive doubles of bounded magnitude. *)
Lemma dmul_mag a b c d x y :
  pos_mag a b x -> pos_mag c d y -> 2 <= a + c -> b + d <= 970 ->
  pos_mag (a + c - 1) (b + d + 1) (dmul x y).
Proof.
  intros (m1 & e1 & -> & H1) (m2 & e2 & -> & H2) Hlo Hhi.
  unfold dmul. simpl.
  pose proof (digits2_pos_mul m1 m2) as Hd.
  destruct (binary_round_aux_mag (Zpos (m1 * m2)) (e1 + e2) loc_Exact)
    as (m & e & -> & H); [lia|simpl; lia|].
  exists m, e. split; [done|]. simpl in H. lia.
Qed.

Lemma d10000_mag : pos_mag 14 14 d10000.
Proof. eexists _, _. split; [reflexivity|]. vm_compute. split; discriminate. Qed.

Lemma d100_mag : pos_mag 7 7 d100.
Proof. eexists _, _. split; [reflexivity|]. vm_compute. split; discriminate. Qed.

(** A quotient of a finite double that is not negative by a positive finite
    double is no NaN and is not negative. *)
Lemma ddiv_nonneg x y lo hi :
  x = d0 \/ (exists lo' hi', pos_mag lo' hi' x) -> pos_mag lo hi y -> nonneg (ddiv x y).
Proof.
  intros [->|(lo' & hi' & m1 & e1 & -> & _)] (m2 & e2 & -> & _); [done|].
  unfold ddiv. simpl.
  destruct (SFdiv_core_binary dprec demax (Zpos m1) e1 (Zpos m2) e2) as [[mz ez] lz] eqn:E.
  apply binary_round_aux_nonneg.
  revert E. unfold SFdiv_core_binary.
  set (s := _ - _ - _).
  set (m' := match s with Z0 => _ | Zpos _ => _ | Zneg _ => _ end).
  assert (Hm' : 0 <= m').
  { subst m'. destruct s; [lia| |lia]. apply Z.shiftl_nonneg. lia. }
  pose proof (Z.div_eucl_eq m' (Zpos m2)) as Heq.
  pose proof (Z.mod_pos_bound m' (Zpos m2)) as Hmod.
  unfold Z.modulo in Hmod.
  destruct (Z.div_eucl m' (Zpos m2)) as [q r]. intros [= <- _ _].
  specialize (Heq ltac:(lia)). specialize (Hmod ltac:(lia)). nia.
Qed.

Lemma ddiv_0 y lo hi : pos_mag lo hi y -> ddiv d0 y = d0.
Proof. by intros (m2 & e2 & -> & _). Qed.

Lemma dmul_nonneg x y lo hi : nonneg x -> pos_mag lo hi y -> nonneg (dmul x y).
Proof.
  intros Hx (m2 & e2 & -> & _). destruct x as [[]|[]| |[] m1 e1]; try done.
  unfold dmul. simpl. by apply binary_round_aux_nonneg.
Qed.

Lemma dmul_0 y lo hi : pos_mag lo hi y -> dmul d0 y = d0.
Proof. by intros (m2 & e2 & -> & _). Qed.

(** The denominator of line 99. *)
Lemma wall_cores_mag deltaMs numCores :
  1 <= deltaMs < 2 ^ 32 -> 1 <= numCores < 2 ^ 32 ->
  pos_mag 14 82 (dmul (dmul (double_of_Z deltaMs) d10000) (double_of_Z numCores)).
Proof.
  intros Hd Hc.
  pose proof (double_of_Z_mag deltaMs 32 Hd ltac:(lia)) as H1.
  pose proof (double_of_Z_mag numCores 32 Hc ltac:(lia)) as H2.
  pose proof (dmul_mag _ _ _ _ _ _ H1 d10000_mag ltac:(lia) ltac:(lia)) as H3.
  pose proof (dmul_mag _ _ _ _ _ _ H3 H2 ltac:(lia) ltac:(lia)) as H4.
  eapply pos_mag_weaken; [exact H4|lia|lia].
Qed.

Lemma numCores_range os : 1 <= numCores os < 2 ^ 32.
Proof.
  unfold numCores. pose proof (wrap32_range (dwNumberOfProcessors os)) as H.
  unfold is_u32 in H. destruct (_ <? 1) eqn:E; lia.
Qed.

(** Whatever the two counters are, the value of lines 96-101 is no NaN and
    is not negative. *)
Lemma usage_nonneg deltaMs numCores t100ns prev100ns :
  1 <= deltaMs < 2 ^ 32 -> 1 <= numCores < 2 ^ 32 ->
  nonneg (usage deltaMs numCores t100ns prev100ns).
Proof.
  intros Hd Hc. unfold usage.
  pose proof (wall_cores_mag deltaMs numCores Hd Hc) as Hden.
  set (deltaProc := if t100ns >? prev100ns then _ else 0).
  assert (Hq : nonneg (dmul (ddiv (double_of_Z deltaProc)
               (dmul (dmul (double_of_Z deltaMs) d10000) (double_of_Z numCores))) d100)).
  { eapply dmul_nonneg; [|apply d100_mag].
    eapply ddiv_nonneg; [|exact Hden].
    assert (Hp : 0 <= deltaProc < 2 ^ 64).
    { subst deltaProc. destruct (_ >? _); [apply wrap64_range|lia]. }
    destruct (decide (deltaProc = 0)) as [->|Hnz]; [by left|].
    right. exists 1, 65. apply (double_of_Z_mag deltaProc 64); lia. }
  destruct (nonneg_ge_0 _ Hq) as [_ ->]. done.
Qed.

(** When the counter did not grow the value is exactly 0. *)
Lemma usage_no_growth deltaMs numCores t100ns prev100ns :
  1 <= deltaMs < 2 ^ 32 -> 1 <= numCores < 2 ^ 32 ->
  t100ns <= prev100ns ->
  usage deltaMs numCores t100ns prev100ns = d0.
Proof.
  intros Hd Hc Hle. unfold usage.
  replace (t100ns >? prev100ns) with false by lia.
  rewrite double_of_Z_0.
  rewrite (ddiv_0 _ _ _ (wall_cores_mag deltaMs numCores Hd Hc)).
  by rewrite (dmul_0 _ _ _ d100_mag).
Qed.

(** ** The loop of [SnapshotProcesses] *)

Section snapshot_facts.
Variable os : OS.
Variable prevTimes : nat.
Variables prevTick curTick : Z.
Variable outNewTimes : nat.

Local Abbreviation query' := (query os prevTimes prevTick curTick outNewTimes).
Local Abbreviation query_all' := (query_all os prevTimes prevTick curTick outNewTimes).
Local Abbreviation SnapshotProcesses' := (SnapshotProcesses os prevTimes prevTick curTick outNewTimes).

Lemma enumerate_map pe next :
  enumerate pe next =
  map (fun pe => {| pid := th32ProcessID pe; name := szExeFile pe; cpuPercent := d0 |})
      (pe :: next).
Proof.
  revert pe. induction next as [|pe' next IH]; intros pe; simpl; [done|].
  by rewrite IH.
Qed.

Lemma SnapshotProcesses_query_all σ :
  SnapshotProcesses' σ = query_all' 0%nat (enumerated os) σ.
Proof.
  unfold SnapshotProcesses, enumerated, entries.
  destruct (CreateToolhelp32Snapshot os) as [[|pe next]|]; simpl; try done.
  rewrite enumerate_map. done.
Qed.

(** The store after one iteration. *)
Lemma query_store i p σ :
  snd (query' i p σ) =
  match read_time os i (pid p) with
  | Some t => <[outNewTimes := <[pid p := t]> (σ !!! outNewTimes)]> σ
  | None => σ
  end.
Proof.
  unfold query, read_time.
  destruct (OpenProcess os i (pid p)) as [h|]; simpl; [|done].
  destruct (GetProcTime100ns h) as [t|]; simpl; [|done].
  destruct (_ !! pid p); [|done].
  by destruct (deltaMs prevTick curTick >? 0).
Qed.

(** The entry after one iteration: identifier and name are kept, and the
    percentage is either untouched or the value of lines 96-102. *)
Lemma query_entry i p σ :
  exists u, fst (query' i p σ) = set_cpuPercent p u
    /\ (u = cpuPercent p
        \/ exists t prev,
             read_time os i (pid p) = Some t
             /\ (snd (query' i p σ) !!! prevTimes) !! pid p = Some prev
             /\ deltaMs prevTick curTick > 0
             /\ u = usage (deltaMs prevTick curTick) (numCores os) t prev).
Proof.
  assert (Hid : p = set_cpuPercent p (cpuPercent p)) by by destruct p.
  pose proof (query_store i p σ) as Hs. revert Hs.
  unfold query, read_time.
  destruct (OpenProcess os i (pid p)) as [h|]; simpl; [|eauto].
  destruct (GetProcTime100ns h) as [t|]; simpl; [|eauto].
  destruct (_ !! pid p) as [prev|] eqn:Hprev; [|eauto].
  destruct (deltaMs prevTick curTick >? 0) eqn:Hd; [|eauto].
  simpl. intros _. eexists. split; [done|]. right. exists t, prev.
  repeat split; try done. lia.
Qed.

Lemma query_all_app i l1 l2 σ :
  query_all' i (l1 ++ l2) σ =
  ((fst (query_all' i l1 σ) ++
    fst (query_all' (i + length l1) l2 (snd (query_all' i l1 σ))))%list,
   snd (query_all' (i + length l1) l2 (snd (query_all' i l1 σ)))).
Proof.
  revert i σ. induction l1 as [|p l1 IH]; intros i σ; simpl.
  - rewrite Nat.add_0_r. by destruct (query_all' i l2 σ).
  - destruct (query' i p σ) as [p' σ'] eqn:Hq.
    rewrite IH. replace (S i + length l1)%nat with (i + S (length l1))%nat by lia.
    destruct (query_all' (S i) l1 σ') as [r1 σ1]. simpl.
    by destruct (query_all' (i + S (length l1)) l2 σ1).
Qed.

Lemma query_all_cons i p l σ :
  query_all' i (p :: l) σ =
  (fst (query' i p σ) :: fst (query_all' (S i) l (snd (query' i p σ))),
   snd (query_all' (S i) l (snd (query' i p σ)))).
Proof.
  simpl. destruct (query' i p σ) as [p' σ']. simpl.
  by destruct (query_all' (S i) l σ').
Qed.

Lemma query_all_length i l σ : length (fst (query_all' i l σ)) = length l.
Proof.
  revert i σ. induction l as [|p l IH]; intros i σ; [done|].
  rewrite query_all_cons. simpl. by rewrite IH.
Qed.

(** Entry [j] of the result is iteration [i + j] on entry [j] of the list,
    run in the store that the iterations before it have left. *)
Lemma query_all_lookup i l σ j p :
  l !! j = Some p ->
  fst (query_all' i l σ) !! j =
  Some (fst (query' (i + j) p (snd (query_all' i (take j l) σ)))).
Proof.
  revert i σ j. induction l as [|q l IH]; intros i σ j Hj; [done|].
  rewrite query_all_cons. destruct j as [|j]; simpl in *.
  - injection Hj as ->. by rewrite Nat.add_0_r.
  - rewrite (IH _ _ _ Hj). replace (i + S j)%nat with (S i + j)%nat by lia.
    destruct (query' i q σ) as [q' σ']. simpl.
    by destruct (query_all' (S i) (take j l) σ').
Qed.

(** Only the map behind [outNewTimes] is written. *)
Lemma query_frame i p σ r :
  r <> outNewTimes -> snd (query' i p σ) !! r = σ !! r.
Proof.
  intros Hr. rewrite query_store.
  destruct (read_time os i (pid p)); [|done].
  by rewrite lookup_insert_ne.
Qed.

Lemma query_all_frame i l σ r :
  r <> outNewTimes -> snd (query_all' i l σ) !! r = σ !! r.
Proof.
  intros Hr. revert i σ. induction l as [|p l IH]; intros i σ; [done|].
  rewrite query_all_cons. simpl. rewrite IH. by apply query_frame.
Qed.

Lemma query_all_out i l σ :
  snd (query_all' i l σ) !!! outNewTimes = recorded os i l (σ !!! outNewTimes).
Proof.
  revert i σ. induction l as [|p l IH]; intros i σ; [done|].
  rewrite query_all_cons. simpl. rewrite IH, query_store.
  destruct (read_time os i (pid p)); [|done].
  by rewrite lookup_total_insert_eq.
Qed.
End snapshot_facts.

(** ** The map that is filled *)

Lemma recorded_app os i l1 l2 m :
  recorded os i (l1 ++ l2) m = recorded os (i + length l1) l2 (recorded os i l1 m).
Proof.
  revert i m. induction l1 as [|p l1 IH]; intros i m; simpl.
  - by rewrite Nat.add_0_r.
  - rewrite IH. by replace (S i + length l1)%nat with (i + S (length l1))%nat by lia.
Qed.

(** A key of the filled map was there before or was read in some iteration. *)
Lemma recorded_lookup_Some os i l m k t :
  recorded os i l m !! k = Some t ->
  m !! k = Some t
  \/ exists j p, l !! j = Some p /\ pid p = k /\ read_time os (i + j) k = Some t.
Proof.
  revert i m. induction l as [|p l IH]; intros i m H; simpl in H; [by left|].
  apply IH in H as [H | (j & q & Hj & Hq & Hr)].
  - destruct (read_time os i (pid p)) as [t'|] eqn:Hrd; [|by left].
    destruct (decide (pid p = k)) as [<-|Hne].
    + rewrite lookup_insert_eq in H. injection H as ->.
      right. exists 0%nat, p. by rewrite Nat.add_0_r.
    + rewrite lookup_insert_ne in H by done. by left.
  - right. exists (S j), q. by replace (i + S j)%nat with (S i + j)%nat by lia.
Qed.

(** Iterations on other identifiers, or whose read fails, leave a key alone. *)
Lemma recorded_untouched os i l m k :
  (forall j p, l !! j = Some p -> pid p = k -> read_time os (i + j) k = None) ->
  recorded os i l m !! k = m !! k.
Proof.
  revert i m. induction l as [|p l IH]; intros i m H; simpl; [done|].
  rewrite IH.
  - destruct (read_time os i (pid p)) as [t|] eqn:Hrd; [|done].
    destruct (decide (pid p = k)) as [<-|Hne]; [|by rewrite lookup_insert_ne].
    specialize (H 0%nat p eq_refl eq_refl). rewrite Nat.add_0_r in H. congruence.
  - intros j q Hj Hq. specialize (H (S j) q Hj Hq).
    by replace (S i + j)%nat with (i + S j)%nat by lia.
Qed.

Lemma recorded_is_Some os i l m k :
  is_Some (m !! k) -> is_Some (recorded os i l m !! k).
Proof.
  revert i m. induction l as [|p l IH]; intros i m H; simpl; [done|].
  apply IH. destruct (read_time os i (pid p)) as [t|]; [|done].
  destruct (decide (pid p = k)) as [<-|Hne].
  - rewrite lookup_insert_eq. eauto.
  - by rewrite lookup_insert_ne.
Qed.

Lemma list_split_at {A} (l : list A) j x :
  l !! j = Some x -> l = take j l ++ x :: drop (S j) l /\ length (take j l) = j.
Proof.
  intros H. split.
  - by rewrite <- (take_drop_middle l j x H) at 1.
  - apply lookup_lt_Some in H. rewrite length_take. lia.
Qed.

(** The counter read by iteration [j] is in the filled map from then on. *)
Lemma recorded_read_present os l m j p t :
  l !! j = Some p -> read_time os j (pid p) = Some t ->
  is_Some (recorded os 0 l m !! pid p).
Proof.
  intros Hj Hr. pose proof (list_split_at l j p Hj) as [Hl Hlen].
  rewrite Hl, recorded_app, Hlen. simpl. rewrite Hr.
  apply recorded_is_Some. rewrite lookup_insert_eq. eauto.
Qed.

(** It is the value found at the end when no later entry carries the same
    identifier. *)
Lemma recorded_read_last os l m j p t :
  l !! j = Some p -> read_time os j (pid p) = Some t ->
  (forall j' p', (j < j')%nat -> l !! j' = Some p' -> pid p' <> pid p) ->
  recorded os 0 l m !! pid p = Some t.
Proof.
  intros Hj Hr Hlater. pose proof (list_split_at l j p Hj) as [Hl Hlen].
  rewrite Hl, recorded_app, Hlen. simpl. rewrite Hr.
  rewrite recorded_untouched; [by rewrite lookup_insert_eq|].
  intros j' p' Hj' Hp'. exfalso.
  apply (Hlater (S j + j')%nat p'); [lia| |done].
  rewrite Hl. rewrite lookup_app_r by lia. rewrite Hlen.
  replace (S j + j' - j)%nat with (S j') by lia. done.
Qed.

Lemma enumerated_lookup os j pe :
  entries os !! j = Some pe ->
  enumerated os !! j =
  Some {| pid := th32ProcessID pe; name := szExeFile pe; cpuPercent := d0 |}.
Proof. intros H. unfold enumerated. by rewrite list_lookup_fmap, H. Qed.

Lemma enumerated_lookup_inv os j p :
  enumerated os !! j = Some p ->
  exists pe, entries os !! j = Some pe /\ pid p = th32ProcessID pe
             /\ name p = szExeFile pe /\ cpuPercent p = d0.
Proof.
  unfold enumerated. rewrite list_lookup_fmap.
  destruct (entries os !! j) as [pe|]; [|done].
  intros [= <-]. by exists pe.
Qed.

(** Entry [j] of the list returned by [SnapshotProcesses]. *)
Lemma SnapshotProcesses_lookup os prevTimes prevTick curTick outNewTimes σ j p :
  enumerated os !! j = Some p ->
  fst (SnapshotProcesses os prevTimes prevTick curTick outNewTimes σ) !! j =
  Some (fst (query os prevTimes prevTick curTick outNewTimes j p
               (snd (query_all os prevTimes prevTick curTick outNewTimes 0
                       (take j (enumerated os)) σ)))).
Proof.
  intros Hp. rewrite SnapshotProcesses_query_all.
  by rewrite (query_all_lookup _ _ _ _ _ _ _ _ _ p Hp).
Qed.

Lemma SnapshotProcesses_length os prevTimes prevTick curTick outNewTimes σ :
  length (fst (SnapshotProcesses os prevTimes prevTick curTick outNewTimes σ)) =
  length (entries os).
Proof.
  rewrite SnapshotProcesses_query_all, query_all_length.
  unfold enumerated. by rewrite length_map.
Qed.

Lemma SnapshotProcesses_out os prevTimes prevTick curTick outNewTimes σ :
  snd (SnapshotProcesses os prevTimes prevTick curTick outNewTimes σ) !!! outNewTimes =
  recorded os 0 (enumerated os) (σ !!! outNewTimes).
Proof. rewrite SnapshotProcesses_query_all. apply query_all_out. Qed.

Lemma SnapshotProcesses_frame os prevTimes prevTick curTick outNewTimes σ r :
  r <> outNewTimes ->
  snd (SnapshotProcesses os prevTimes prevTick curTick outNewTimes σ) !! r = σ !! r.
Proof. intros Hr. rewrite SnapshotProcesses_query_all. by apply query_all_frame. Qed.

Lemma deltaMs_same_tick t : deltaMs t t = 0.
Proof.
  unfold deltaMs. destruct (t >=? t) eqn:E; [by rewrite Z.sub_diag|lia].
Qed.

(** C4.  When the elapsed tick count of the cycle is 0, as in the first
    call where both ticks are the same reading, every entry of the returned
    list has percentage exactly 0. *)
Theorem zero_elapsed_reports_zero os prevTimes prevTick curTick outNewTimes σ :
  deltaMs prevTick curTick = 0 \/ curTick = prevTick ->
  Forall (fun p => cpuPercent p = d0)
         (fst (SnapshotProcesses os prevTimes prevTick curTick outNewTimes σ)).
Proof.
  intros Hd. assert (Hz : deltaMs prevTick curTick = 0).
  { destruct Hd as [?| ->]; [done|apply deltaMs_same_tick]. }
  apply Forall_lookup_2. intros j q Hq.
  assert (Hlt : (j < length (enumerated os))%nat).
  { apply lookup_lt_Some in Hq. rewrite SnapshotProcesses_length in Hq.
    unfold enumerated. by rewrite length_map. }
  destruct (lookup_lt_is_Some_2 _ _ Hlt) as [p Hp].
  rewrite (SnapshotProcesses_lookup _ _ _ _ _ _ _ p Hp) in Hq. injection Hq as <-.
  destruct (enumerated_lookup_inv _ _ _ Hp) as (pe & _ & _ & _ & Hcpu).
  destruct (query_entry os prevTimes prevTick curTick outNewTimes j p
              (snd (query_all os prevTimes prevTick curTick outNewTimes 0
                      (take j (enumerated os)) σ)))
    as (u & -> & [-> | (t & prev & _ & _ & Hpos & _)]); [done|lia].
Qed.

Lemma zero_elapsed_reports_zero_witness :
  Forall (fun p => cpuPercent p = d0)
    (fst (SnapshotProcesses
            {| CreateToolhelp32Snapshot :=
                 Some [ {| th32ProcessID := 4; szExeFile := "System" |} ];
               OpenProcess := fun _ _ =>
                 Some {| GetProcessTimes :=
                   Some {| ftCreation := {| dwLowDateTime := 0; dwHighDateTime := 0 |};
                           ftExit := {| dwLowDateTime := 0; dwHighDateTime := 0 |};
                           ftKernel := {| dwLowDateTime := 900; dwHighDateTime := 0 |};
                           ftUser := {| dwLowDateTime := 100; dwHighDateTime := 0 |} |} |};
               dwNumberOfProcessors := 4 |}
            0%nat 5000 5000 1%nat
            (<[0%nat := <[4 := 500]> ∅]> ∅))).
Proof. apply zero_elapsed_reports_zero. left. reflexivity. Defined.

Lemma read_time_None os i k :
  read_time os i k = None <->
  OpenProcess os i k = None
  \/ exists h, OpenProcess os i k = Some h /\ GetProcessTimes h = None.
Proof.
  unfold read_time, GetProcTime100ns. split.
  - destruct (OpenProcess os i k) as [h|]; simpl; [|by left].
    destruct (GetProcessTimes h) eqn:E; [done|]. right. by exists h.
  - intros [-> | (h & -> & Hh)]; simpl; [done|]. by rewrite Hh.
Qed.

(** C5.  An entry whose identifier has no counter in the previous map and
    whose counter is read is returned with percentage exactly 0; its
    identifier is a key of the filled map, and the value kept for it is the
    counter just read when no later entry of the snapshot carries the same
    identifier. *)
Theorem new_identifier_reports_zero
    os prevTimes prevTick curTick outNewTimes σ j pe t :
  prevTimes <> outNewTimes ->
  entries os !! j = Some pe ->
  (σ !!! prevTimes) !! th32ProcessID pe = None ->
  read_time os j (th32ProcessID pe) = Some t ->
  let r := SnapshotProcesses os prevTimes prevTick curTick outNewTimes σ in
  fst r !! j =
    Some {| pid := th32ProcessID pe; name := szExeFile pe; cpuPercent := d0 |}
  /\ is_Some ((snd r !!! outNewTimes) !! th32ProcessID pe)
  /\ ((forall j' pe', (j < j')%nat -> entries os !! j' = Some pe' ->
         th32ProcessID pe' <> th32ProcessID pe) ->
      (snd r !!! outNewTimes) !! th32ProcessID pe = Some t).
Proof.
  intros Hne Hj Hprev Hread r. subst r.
  pose proof (enumerated_lookup _ _ _ Hj) as Hp.
  set (p := {| pid := th32ProcessID pe; name := szExeFile pe; cpuPercent := d0 |}) in *.
  split; [|split].
  - rewrite (SnapshotProcesses_lookup _ _ _ _ _ _ _ p Hp). f_equal.
    set (σj := snd (query_all _ _ _ _ _ _ _ _)).
    destruct (query_entry os prevTimes prevTick curTick outNewTimes j p σj)
      as (u & -> & [-> | (t' & prev & _ & Hfound & _)]); [done|].
    exfalso. revert Hfound.
    rewrite !lookup_total_alt, query_frame by done.
    unfold σj. rewrite query_all_frame by done.
    rewrite <- lookup_total_alt. simpl. by rewrite Hprev.
  - rewrite SnapshotProcesses_out.
    by apply (recorded_read_present os _ _ j p t).
  - intros Hlater. rewrite SnapshotProcesses_out.
    apply (recorded_read_last os _ _ j p t); [done|done|].
    intros j' p' Hlt Hp'.
    destruct (enumerated_lookup_inv _ _ _ Hp') as (pe' & Hpe' & -> & _).
    by apply (Hlater j' pe').
Qed.

(** C6.  An entry whose counter cannot be read, because the process cannot
    be opened or because the read fails, is returned with percentage exactly
    0, and its iteration writes nothing; so its identifier is not a key of
    the filled map unless it was one before or another entry of the snapshot
    carries it. *)
Theorem unreadable_process_reports_zero
    os prevTimes prevTick curTick outNewTimes σ j pe :
  entries os !! j = Some pe ->
  (OpenProcess os j (th32ProcessID pe) = None
   \/ exists h, OpenProcess os j (th32ProcessID pe) = Some h
                /\ GetProcessTimes h = None) ->
  let p := {| pid := th32ProcessID pe; name := szExeFile pe; cpuPercent := d0 |} in
  let r := SnapshotProcesses os prevTimes prevTick curTick outNewTimes σ in
  fst r !! j = Some p
  /\ (forall σ0, snd (query os prevTimes prevTick curTick outNewTimes j p σ0) = σ0)
  /\ ((σ !!! outNewTimes) !! th32ProcessID pe = None ->
      (forall j' pe', j' <> j -> entries os !! j' = Some pe' ->
         th32ProcessID pe' <> th32ProcessID pe) ->
      (snd r !!! outNewTimes) !! th32ProcessID pe = None).
Proof.
  intros Hj Hfail p r. subst r.
  apply read_time_None in Hfail.
  pose proof (enumerated_lookup _ _ _ Hj) as Hp. fold p in Hp.
  split; [|split].
  - rewrite (SnapshotProcesses_lookup _ _ _ _ _ _ _ p Hp). f_equal.
    set (σj := snd (query_all _ _ _ _ _ _ _ _)).
    destruct (query_entry os prevTimes prevTick curTick outNewTimes j p σj)
      as (u & -> & [-> | (t' & prev & Hrd & _)]); [done|].
    simpl in Hrd. congruence.
  - intros σ0. rewrite query_store. simpl. by rewrite Hfail.
  - intros Hold Hothers. rewrite SnapshotProcesses_out.
    rewrite recorded_untouched; [done|].
    intros j' p' Hp' Hpid. simpl.
    destruct (enumerated_lookup_inv _ _ _ Hp') as (pe' & Hpe' & Hpid' & _).
    destruct (decide (j' = j)) as [->|Hjj]; [done|].
    exfalso. apply (Hothers j' pe' Hjj Hpe'). congruence.
Qed.

(** The map that [main] hands to the call is empty (line 167), so after the
    swap of line 170 the rolling map holds identifiers of the snapshot only. *)
Lemma sample_maps os curTick s :
  maps (snd (sample os curTick s)) !!! main_prevTimes =
  recorded os 0 (enumerated os) ∅.
Proof.
  unfold sample, snapshot_call.
  destruct (SnapshotProcesses _ _ _ _ _ _) as [procs σ'] eqn:E. simpl.
  unfold swap_maps. rewrite lookup_total_insert_ne by done.
  rewrite lookup_total_insert_eq.
  change σ' with (snd (procs, σ')). rewrite <- E.
  rewrite SnapshotProcesses_out. by rewrite lookup_total_insert_eq.
Qed.

Lemma sample_procs os curTick s :
  fst (sample os curTick s) =
  fst (SnapshotProcesses os main_prevTimes (prevTick s) curTick main_curTimes
         (<[main_curTimes := ∅]> (maps s))).
Proof.
  unfold sample, snapshot_call. by destruct (SnapshotProcesses _ _ _ _ _ _).
Qed.

Lemma query_all_id_name os prevTimes prevTick curTick outNewTimes i l σ :
  map (fun p => (pid p, name p))
      (fst (query_all os prevTimes prevTick curTick outNewTimes i l σ)) =
  map (fun p => (pid p, name p)) l.
Proof.
  revert i σ. induction l as [|p l IH]; intros i σ; [done|].
  rewrite query_all_cons. simpl. rewrite IH. f_equal.
  destruct (query_entry os prevTimes prevTick curTick outNewTimes i p σ)
    as (u & -> & _). done.
Qed.

(** C7.  A sampling cycle returns one entry per entry of the snapshot, in
    the order of the snapshot and with its identifier and name (none when
    the snapshot cannot be taken), and the rolling map it leaves has no key
    outside the identifiers of that snapshot, whatever it held before. *)
Theorem sample_entries_and_eviction os curTick s :
  map (fun p => (pid p, name p)) (fst (sample os curTick s)) =
    map (fun pe => (th32ProcessID pe, szExeFile pe)) (entries os)
  /\ forall k, k ∉ map th32ProcessID (entries os) ->
       (maps (snd (sample os curTick s)) !!! main_prevTimes) !! k = None.
Proof.
  split.
  - rewrite sample_procs, SnapshotProcesses_query_all, query_all_id_name.
    unfold enumerated. rewrite map_map. done.
  - intros k Hk. rewrite sample_maps.
    destruct (recorded os 0 (enumerated os) ∅ !! k) as [t|] eqn:E; [|done].
    apply recorded_lookup_Some in E as [E | (j & p & Hp & Hpid & _)]; [done|].
    destruct (enumerated_lookup_inv _ _ _ Hp) as (pe & Hpe & Hpid' & _).
    exfalso. apply Hk. apply list_elem_of_fmap. exists pe. split; [congruence|].
    by apply list_elem_of_lookup_2 in Hpe.
Qed.

(** C10.  A call of [SnapshotProcesses] leaves the map behind [prevTimes] as
    it was, provided the map to fill is another object, as it is at both
    calls of [main]; when there is nothing to enumerate the whole store is
    untouched.  In [main] the rolling map and tick are replaced after the
    call has returned. *)
Theorem previous_state_not_mutated
    os prevTimes prevTick curTick outNewTimes σ s :
  prevTimes <> outNewTimes ->
  snd (SnapshotProcesses os prevTimes prevTick curTick outNewTimes σ) !! prevTimes
    = σ !! prevTimes
  /\ (entries os = [] ->
      SnapshotProcesses os prevTimes prevTick curTick outNewTimes σ = ([], σ))
  /\ snd (snapshot_call os curTick s) !! main_prevTimes = maps s !! main_prevTimes
  /\ snd (sample os curTick s) =
       {| maps := swap_maps main_prevTimes main_curTimes
                    (snd (snapshot_call os curTick s));
          prevTick := curTick;
          sortByCPU := sortByCPU s |}.
Proof.
  intros Hne. repeat split.
  - by apply SnapshotProcesses_frame.
  - intros He. rewrite SnapshotProcesses_query_all. unfold enumerated. by rewrite He.
  - unfold snapshot_call. rewrite SnapshotProcesses_frame by done.
    by rewrite lookup_insert_ne.
  - unfold sample. by destruct (snapshot_call os curTick s).
Qed.

(** ** Percentages *)

(** The entry written by an iteration whose identifier is in the previous
    map and whose counter is read. *)
Lemma query_found os prevTimes prevTick curTick outNewTimes i p σ t prev :
  prevTimes <> outNewTimes ->
  read_time os i (pid p) = Some t ->
  (σ !!! prevTimes) !! pid p = Some prev ->
  fst (query os prevTimes prevTick curTick outNewTimes i p σ) =
  if deltaMs prevTick curTick >? 0
  then set_cpuPercent p (usage (deltaMs prevTick curTick) (numCores os) t prev)
  else p.
Proof.
  intros Hne Hrd Hprev. unfold query, read_time in *.
  destruct (OpenProcess os i (pid p)) as [h|]; simpl in *; [|done].
  rewrite Hrd. rewrite lookup_total_insert_ne by done. rewrite Hprev.
  by destruct (deltaMs prevTick curTick >? 0).
Qed.

Lemma SnapshotProcesses_found
    os prevTimes prevTick curTick outNewTimes σ j pe t prev :
  prevTimes <> outNewTimes ->
  entries os !! j = Some pe ->
  read_time os j (th32ProcessID pe) = Some t ->
  (σ !!! prevTimes) !! th32ProcessID pe = Some prev ->
  deltaMs prevTick curTick > 0 ->
  fst (SnapshotProcesses os prevTimes prevTick curTick outNewTimes σ) !! j =
  Some {| pid := th32ProcessID pe; name := szExeFile pe;
          cpuPercent := usage (deltaMs prevTick curTick) (numCores os) t prev |}.
Proof.
  intros Hne Hj Hrd Hprev Hpos.
  pose proof (enumerated_lookup _ _ _ Hj) as Hp.
  rewrite (SnapshotProcesses_lookup _ _ _ _ _ _ _ _ Hp).
  rewrite (query_found _ _ _ _ _ _ _ _ t prev); [|done|done|].
  - by replace (deltaMs prevTick curTick >? 0) with true by lia.
  - rewrite lookup_total_alt, query_all_frame by done.
    by rewrite <- lookup_total_alt.
Qed.

(** C3.  Every percentage returned by a cycle is a number, not NaN, and is
    at least 0, whatever the counters, the ticks and the core count are; and
    an entry whose counter is below the one remembered for its identifier is
    returned with percentage exactly 0. *)
Theorem percentage_never_negative_or_nan
    os prevTimes prevTick curTick outNewTimes σ :
  Forall (fun p => is_nan (cpuPercent p) = false /\ dle d0 (cpuPercent p) = true)
         (fst (SnapshotProcesses os prevTimes prevTick curTick outNewTimes σ))
  /\ forall j pe t prev,
       prevTimes <> outNewTimes ->
       entries os !! j = Some pe ->
       read_time os j (th32ProcessID pe) = Some t ->
       (σ !!! prevTimes) !! th32ProcessID pe = Some prev ->
       t < prev ->
       fst (SnapshotProcesses os prevTimes prevTick curTick outNewTimes σ) !! j =
       Some {| pid := th32ProcessID pe; name := szExeFile pe; cpuPercent := d0 |}.
Proof.
  pose proof (deltaMs_range prevTick curTick) as Hd. unfold is_u32 in Hd.
  split.
  - apply Forall_lookup_2. intros j q Hq.
    assert (Hlt : (j < length (enumerated os))%nat).
    { apply lookup_lt_Some in Hq. rewrite SnapshotProcesses_length in Hq.
      unfold enumerated. by rewrite length_map. }
    destruct (lookup_lt_is_Some_2 _ _ Hlt) as [p Hp].
    rewrite (SnapshotProcesses_lookup _ _ _ _ _ _ _ p Hp) in Hq. injection Hq as <-.
    destruct (enumerated_lookup_inv _ _ _ Hp) as (pe & _ & _ & _ & Hcpu).
    destruct (query_entry os prevTimes prevTick curTick outNewTimes j p
                (snd (query_all os prevTimes prevTick curTick outNewTimes 0
                        (take j (enumerated os)) σ)))
      as (u & -> & [-> | (t & prev & _ & _ & Hpos & ->)]); simpl.
    + by rewrite Hcpu.
    + pose proof (usage_nonneg (deltaMs prevTick curTick) (numCores os) t prev
                    ltac:(lia) (numCores_range os)) as Hn.
      split; [by apply nonneg_not_nan|by apply nonneg_ge_0].
  - intros j pe t prev Hne Hj Hrd Hprev Hlt.
    destruct (decide (deltaMs prevTick curTick > 0)) as [Hpos|Hzero].
    + rewrite (SnapshotProcesses_found _ _ _ _ _ _ _ _ t prev) by done.
      by rewrite usage_no_growth by (try apply numCores_range; lia).
    + pose proof (enumerated_lookup _ _ _ Hj) as Hp.
      rewrite (SnapshotProcesses_lookup _ _ _ _ _ _ _ _ Hp).
      rewrite (query_found _ _ _ _ _ _ _ _ t prev); [|done|done|].
      * by replace (deltaMs prevTick curTick >? 0) with false by lia.
      * rewrite lookup_total_alt, query_all_frame by done.
        by rewrite <- lookup_total_alt.
Qed.

Lemma percentage_never_negative_or_nan_witness :
  Forall (fun p => is_nan (cpuPercent p) = false /\ dle d0 (cpuPercent p) = true)
         (fst (SnapshotProcesses demo_os main_prevTimes 5000 6000 main_curTimes demo_store))
  /\ fst (SnapshotProcesses demo_os main_prevTimes 5000 6000 main_curTimes demo_store)
       !! 3%nat
     = Some {| pid := 2044; name := "calc.exe"; cpuPercent := d0 |}.
Proof.
  split.
  - apply (percentage_never_negative_or_nan
             demo_os main_prevTimes 5000 6000 main_curTimes demo_store).
  - apply (proj2 (percentage_never_negative_or_nan
                    demo_os main_prevTimes 5000 6000 main_curTimes demo_store)
             3%nat {| th32ProcessID := 2044; szExeFile := "calc.exe" |} 50 900).
    + discriminate.
    + reflexivity.
    + reflexivity.
    + reflexivity.
    + reflexivity.
Defined.

(** C8.  A process whose counter goes from 500,000 to 1,500,000 while 1000
    ticks go by on a 4-core host is returned with percentage 2.5, the double
    [5629499534213120 * 2^-51]. *)
Theorem percentage_of_reference_scenario
    os prevTimes prevTick curTick outNewTimes σ j pe :
  prevTimes <> outNewTimes ->
  entries os !! j = Some pe ->
  deltaMs prevTick curTick = 1000 ->
  numCores os = 4 ->
  (σ !!! prevTimes) !! th32ProcessID pe = Some 500000 ->
  read_time os j (th32ProcessID pe) = Some 1500000 ->
  fst (SnapshotProcesses os prevTimes prevTick curTick outNewTimes σ) !! j =
    Some {| pid := th32ProcessID pe; name := szExeFile pe;
            cpuPercent := S754_finite false 5629499534213120 (-51) |}
  /\ 2 * 5629499534213120 = 5 * 2 ^ 51
  /\ ddiv (double_of_Z 5) (double_of_Z 2) = S754_finite false 5629499534213120 (-51).
Proof.
  intros Hne Hj Hd Hc Hprev Hrd. split; [|split; reflexivity].
  rewrite (SnapshotProcesses_found _ _ _ _ _ _ _ _ 1500000 500000) by (done || lia).
  rewrite Hd, Hc. reflexivity.
Qed.

Lemma percentage_of_reference_scenario_witness :
  fst (SnapshotProcesses demo_os main_prevTimes 5000 6000 main_curTimes demo_store)
    !! 1%nat
  = Some {| pid := 812; name := "svchost.exe";
            cpuPercent := S754_finite false 5629499534213120 (-51) |}.
Proof.
  apply (percentage_of_reference_scenario
           demo_os main_prevTimes 5000 6000 main_curTimes demo_store
           1%nat {| th32ProcessID := 812; szExeFile := "svchost.exe" |}).
  - discriminate.
  - reflexivity.
  - reflexivity.
  - reflexivity.
  - reflexivity.
  - reflexivity.
Defined.

Lemma new_identifier_reports_zero_witness :
  fst (SnapshotProcesses demo_os main_prevTimes 5000 6000 main_curTimes demo_store)
    !! 2%nat
  = Some {| pid := 1520; name := "notepad.exe"; cpuPercent := d0 |}
  /\ (snd (SnapshotProcesses demo_os main_prevTimes 5000 6000 main_curTimes demo_store)
        !!! main_curTimes) !! 1520 = Some 300.
Proof.
  pose proof (new_identifier_reports_zero
                demo_os main_prevTimes 5000 6000 main_curTimes demo_store
                2%nat {| th32ProcessID := 1520; szExeFile := "notepad.exe" |} 300
                ltac:(discriminate) eq_refl eq_refl eq_refl) as (H1 & _ & H3).
  split; [exact H1|]. apply H3.
  intros [|[|[|[|[|j']]]]] pe' Hlt; try lia; simpl; try discriminate.
  intros [= <-]. discriminate.
Defined.

Lemma unreadable_process_reports_zero_witness :
  fst (SnapshotProcesses demo_os main_prevTimes 5000 6000 main_curTimes demo_store)
    !! 0%nat
  = Some {| pid := 4; name := "System"; cpuPercent := d0 |}
  /\ (snd (SnapshotProcesses demo_os main_prevTimes 5000 6000 main_curTimes demo_store)
        !!! main_curTimes) !! 4 = None.
Proof.
  pose proof (unreadable_process_reports_zero
                demo_os main_prevTimes 5000 6000 main_curTimes demo_store
                0%nat {| th32ProcessID := 4; szExeFile := "System" |}
                eq_refl (or_introl eq_refl)) as (H1 & _ & H3).
  split; [exact H1|]. apply H3; [reflexivity|].
  intros [|[|[|[|[|j']]]]] pe' Hne; try done; simpl; try discriminate;
    intros [= <-]; discriminate.
Defined.

Lemma previous_state_not_mutated_witness :
  snd (SnapshotProcesses demo_os main_prevTimes 5000 6000 main_curTimes demo_store)
    !! main_prevTimes
  = demo_store !! main_prevTimes.
Proof.
  apply (previous_state_not_mutated
           demo_os main_prevTimes 5000 6000 main_curTimes demo_store demo_session).
  discriminate.
Defined.

(** ** Commands *)


Lemma pidStr_nonempty cmd :
  pidStr cmd <> ""%string ->
  String.eqb cmd "" = false
  /\ String.eqb cmd "q" || String.eqb cmd "Q" = false
  /\ String.eqb cmd "s" || String.eqb cmd "S" = false.
Proof.
  intros H. repeat split.
  - destruct (String.eqb_spec cmd ""%string) as [->|]; [done|done].
  - destruct (String.eqb_spec cmd "q"%string) as [->|]; [done|].
    destruct (String.eqb_spec cmd "Q"%string) as [->|]; done.
  - destruct (String.eqb_spec cmd "s"%string) as [->|]; [done|].
    destruct (String.eqb_spec cmd "S"%string) as [->|]; done.
Qed.

(** C9.  A command that asks to end a process which cannot be opened, as
    when no process has the identifier, is answered with the message that
    the process cannot be opened and the error code; the session, with its
    rolling map and tick, is unchanged and the loop goes on. *)
Theorem terminate_unknown_pid_keeps_state api line stdin s n :
  pidStr (trim line) <> ""%string ->
  stoul (pidStr (trim line)) = stoul_value n ->
  OpenProcess_TERMINATE api (wrap32 n) = false ->
  command api (line :: stdin) s =
  (Continue, s,
   [Prompt; CannotOpen (wrap32 n) (GetLastError api); PressEnter],
   snd (getline stdin)).
Proof.
  intros Hne Hn Hopen. unfold command. simpl getline. cbv beta iota.
  destruct (pidStr_nonempty _ Hne) as (-> & -> & ->).
  unfold kill. rewrite Hn, Hopen.
  destruct (pidStr (trim line)); [done|done].
Qed.

Lemma terminate_unknown_pid_keeps_state_witness :
  command {| OpenProcess_TERMINATE := fun _ => false;
             TerminateProcess := fun _ => false;
             GetLastError := 87 |}
          ["k 4242 "%string; ""%string; "q"%string] demo_session =
  (Continue, demo_session, [Prompt; CannotOpen 4242 87; PressEnter], ["q"%string]).
Proof.
  apply (terminate_unknown_pid_keeps_state
           {| OpenProcess_TERMINATE := fun _ => false;
              TerminateProcess := fun _ => false;
              GetLastError := 87 |}
           "k 4242 "%string [""%string; "q"%string] demo_session 4242).
  - discriminate.
  - reflexivity.
  - reflexivity.
Defined.

(** ** Sorting *)

Section array.
Context {A : Type}.
Variable comp : A -> A -> bool.
Implicit Types (x y h : A) (w s rest acc : list A).

Lemma linear_insert_loop_list x w h acc rest :
  linear_insert_loop comp x (length w) (w ++ h :: acc ++ rest) =
  (fun r => r ++ rest) <$> linear_insert_list comp x (rev w) acc.
Proof.
  revert h acc. induction w as [|y w IH] using rev_ind; intros h acc; [done|].
  rewrite length_app, Nat.add_1_r, rev_unit. simpl.
  rewrite <- app_assoc. simpl.
  rewrite list_lookup_middle by done. simpl.
  replace (w ++ y :: h :: acc ++ rest) with ((w ++ [y]) ++ h :: acc ++ rest)
    by by rewrite <- app_assoc.
  replace (S (length w)) with (length (w ++ [y]) + 0)%nat
    by (rewrite length_app; simpl; lia).
  rewrite insert_app_r. simpl.
  destruct (comp x y).
  - rewrite <- app_assoc. simpl. apply (IH y (y :: acc)).
  - rewrite insert_app_r. simpl. rewrite rev_involutive.
    by rewrite <- !app_assoc.
Qed.

Lemma unguarded_linear_insert_list x w rest :
  unguarded_linear_insert comp (length w) (w ++ x :: rest) =
  (fun r => r ++ rest) <$> linear_insert_list comp x (rev w) [].
Proof.
  unfold unguarded_linear_insert. rewrite list_lookup_middle by done. simpl.
  apply (linear_insert_loop_list x w x [] rest).
Qed.

Lemma move_backward_shift w h acc :
  move_backward (length w) (length w) (S (length w)) (w ++ h :: acc) =
  Some (match w with [] => [h] | w0 :: _ => w0 :: w end ++ acc).
Proof.
  revert h acc. induction w as [|y w IH] using rev_ind; intros h acc; [done|].
  rewrite length_app, Nat.add_1_r. simpl.
  rewrite <- app_assoc. simpl.
  rewrite list_lookup_middle by done. simpl.
  replace (S (length w) <? length (w ++ y :: h :: acc))%nat with true.
  2:{ symmetry. apply Nat.ltb_lt. rewrite length_app. simpl. lia. }
  replace (w ++ y :: h :: acc) with ((w ++ [y]) ++ h :: acc)
    by by rewrite <- app_assoc.
  replace (S (length w)) with (length (w ++ [y]) + 0)%nat
    by (rewrite length_app; simpl; lia).
  rewrite insert_app_r. simpl. rewrite <- app_assoc. simpl.
  rewrite length_app. simpl. rewrite Nat.add_0_r, Nat.add_1_r.
  rewrite (IH y (y :: acc)). f_equal.
  destruct w as [|w0 w]; simpl; [done|]. by rewrite <- app_assoc.
Qed.

Lemma linear_insert_list_length x before after r :
  linear_insert_list comp x before after = Some r ->
  length r = S (length before + length after).
Proof.
  revert after r. induction before as [|y before IH]; intros after r; [done|].
  simpl. destruct (comp x y).
  - intros H. apply IH in H. simpl in H. lia.
  - intros [= <-]. rewrite length_app, length_app. simpl.
    rewrite length_rev. lia.
Qed.

Lemma insert_list_length x s r :
  insert_list comp x s = Some r -> length r = S (length s).
Proof.
  unfold insert_list. destruct s as [|f s]; [done|].
  destruct (comp x f).
  - by intros [= <-].
  - intros H. apply linear_insert_list_length in H.
    rewrite length_rev in H. simpl in *. lia.
Qed.

(** The loop of [__insertion_sort] from position [length s] on, when the
    range starts at the beginning of the vector. *)
Lemma insertion_sort_from_list s rest :
  s <> [] ->
  insertion_sort_from comp (length rest) 0 (length s) (s ++ rest) =
  insertion_sort_list comp s rest.
Proof.
  revert s. induction rest as [|x rest IH]; intros s Hs;
    [simpl; by rewrite app_nil_r|].
  destruct s as [|f s]; [done|].
  pose proof (move_backward_shift (f :: s) x rest) as Hmb.
  pose proof (unguarded_linear_insert_list x (f :: s) rest) as Hu.
  cbn [length insertion_sort_from insertion_sort_list insert_list].
  rewrite (list_lookup_middle (f :: s) rest x (S (length s)) eq_refl).
  change (((f :: s) ++ x :: rest) !! 0%nat) with (Some f).
  cbn [mbind option_bind].
  replace (S (length s) - 0)%nat with (S (length s)) by lia.
  replace (S (length s) + 1)%nat with (S (S (length s))) by lia.
  destruct (comp x f) eqn:Hc.
  - cbn [length] in Hmb. rewrite Hmb. cbn [mbind option_bind].
    apply (IH (x :: f :: s)). done.
  - cbn [length] in Hu. rewrite Hu.
    destruct (linear_insert_list comp x (rev (f :: s)) []) as [s'|] eqn:E; [|done].
    cbn [fmap option_fmap option_map mbind option_bind].
    pose proof (linear_insert_list_length _ _ _ _ E) as Hlen.
    rewrite length_rev in Hlen. cbn [length] in Hlen.
    replace (S (S (length s))) with (length s') by lia.
    apply IH. destruct s'; [simpl in Hlen; lia|done].
Qed.

Lemma introsort_loop_small d first last v :
  (last - first <= 16)%nat -> introsort_loop comp d first last v = Some v.
Proof.
  intros H. assert (E : (S_threshold <? last - first)%nat = false).
  { apply Nat.ltb_ge. unfold S_threshold. lia. }
  destruct d; cbn [introsort_loop]; by rewrite E.
Qed.

(** Up to [S_threshold] elements [std::sort] is the insertion sort. *)
Lemma std_sort_small v :
  (length v <= 16)%nat ->
  std_sort comp v =
  match v with [] => Some [] | x :: rest => insertion_sort_list comp [x] rest end.
Proof.
  intros Hlen. unfold std_sort, sort.
  destruct v as [|x rest]; [done|].
  replace (0 =? length (x :: rest))%nat with false by done.
  rewrite introsort_loop_small by lia. cbn [mbind option_bind].
  unfold final_insertion_sort.
  replace (S_threshold <? length (x :: rest) - 0)%nat with false.
  2:{ symmetry; apply Nat.ltb_ge; unfold S_threshold; lia. }
  unfold insertion_sort. cbn [length].
  replace (0 =? S (length rest))%nat with false by done.
  replace (S (length rest) - (0 + 1))%nat with (length rest) by lia.
  apply (insertion_sort_from_list [x] rest). done.
Qed.
End array.

Section insertion_order.
Context {A : Type}.
Variable comp : A -> A -> bool.
Variable P : A -> Prop.
Hypothesis swo : strict_weak_order P comp.
Implicit Types (x y : A) (s w rest : list A).

Lemma swo_asym a b : P a -> P b -> comp a b = true -> comp b a = false.
Proof.
  intros Ha Hb Hab. destruct (comp b a) eqn:Hba; [|done].
  pose proof (swo_trans P comp swo a b a Ha Hb Ha Hab Hba) as H.
  by rewrite (swo_irrefl P comp swo a Ha) in H.
Qed.

(** [a < b] and [b <= c] give [a < c]. *)
Lemma swo_lt_le a b c :
  P a -> P b -> P c -> comp a b = true -> comp c b = false -> comp a c = true.
Proof.
  intros Ha Hb Hc Hab Hcb. destruct (comp a c) eqn:Hac; [done|]. exfalso.
  destruct (comp c a) eqn:Hca.
  { pose proof (swo_trans P comp swo c a b Hc Ha Hb Hca Hab). congruence. }
  destruct (comp b c) eqn:Hbc.
  { pose proof (swo_trans P comp swo a b c Ha Hb Hc Hab Hbc). congruence. }
  assert (H1 : equiv_by comp a c = true) by (unfold equiv_by; by rewrite Hac, Hca).
  assert (H2 : equiv_by comp c b = true) by (unfold equiv_by; by rewrite Hcb, Hbc).
  pose proof (swo_equiv_trans P comp swo a c b Ha Hc Hb H1 H2) as H.
  unfold equiv_by in H. rewrite Hab in H. done.
Qed.

(** Two elements equivalent to a third are not ordered. *)
Lemma swo_equiv_not_lt c x z :
  P c -> P x -> P z ->
  equiv_by comp c x = true -> comp x z = true -> equiv_by comp c z = false.
Proof.
  intros Hc Hx Hz Hcx Hxz. destruct (equiv_by comp c z) eqn:Hcz; [|done].
  assert (Hxc : equiv_by comp x c = true).
  { unfold equiv_by in *. by rewrite andb_comm. }
  pose proof (swo_equiv_trans P comp swo x c z Hx Hc Hz Hxc Hcz) as H.
  unfold equiv_by in H. rewrite Hxz in H. done.
Qed.

Lemma elem_of_rev x s : x ∈ rev s <-> x ∈ s.
Proof. rewrite !list_elem_of_In. symmetry. apply in_rev. Qed.

Lemma linear_insert_list_stop x before after :
  (exists y, y ∈ before /\ comp x y = false) ->
  exists b2 y b1,
    before = b2 ++ y :: b1
    /\ Forall (fun z => comp x z = true) b2
    /\ comp x y = false
    /\ linear_insert_list comp x before after =
       Some (rev (y :: b1) ++ x :: rev b2 ++ after).
Proof.
  revert after. induction before as [|y0 before IH]; intros after (y & Hin & Hy).
  { by apply elem_of_nil in Hin. }
  simpl. destruct (comp x y0) eqn:E.
  - destruct (IH (y0 :: after)) as (b2 & y' & b1 & -> & Hall & Hy' & ->).
    { exists y. split; [|done]. apply elem_of_cons in Hin as [->|]; [congruence|done]. }
    exists (y0 :: b2), y', b1. repeat split; try done.
    + by constructor.
    + simpl. by rewrite <- !app_assoc.
  - exists [], y0, before. repeat split; try done.
Qed.

(** One turn of the insertion sort puts [x] behind every element that it is
    not smaller than and before every element that it is smaller than. *)
Lemma insert_list_split x s :
  s <> [] -> P x -> Forall P s -> StronglySorted (not_after comp) s ->
  exists w1 w2,
    s = w1 ++ w2
    /\ insert_list comp x s = Some (w1 ++ x :: w2)
    /\ Forall (fun a => comp x a = false) w1
    /\ Forall (fun z => comp x z = true) w2.
Proof.
  intros Hs Hx HP Hsorted. destruct s as [|f s]; [done|].
  unfold insert_list. destruct (comp x f) eqn:Hxf.
  - exists [], (f :: s). repeat split; try done.
    apply Forall_cons. split; [done|].
    apply StronglySorted_inv in Hsorted as [_ Hf].
    apply Forall_cons in HP as [Hf' HP].
    rewrite Forall_forall in *. intros z Hz.
    apply (swo_lt_le x f z); auto. apply (Hf z Hz).
  - destruct (linear_insert_list_stop x (rev (f :: s)) [])
      as (b2 & y & b1 & Hrev & Hall & Hy & ->).
    { exists f. split; [|done]. rewrite elem_of_rev. by left. }
    assert (Hsplit : f :: s = rev (y :: b1) ++ rev b2).
    { rewrite <- rev_app_distr, <- Hrev. by rewrite rev_involutive. }
    exists (rev (y :: b1)), (rev b2). rewrite app_nil_r.
    repeat split; try done.
    + rewrite Hsplit in Hsorted, HP.
      apply StronglySorted_app_1_l in Hsorted. simpl in Hsorted.
      apply Forall_app in HP as [HP1 _]. simpl in HP1.
      apply Forall_app in HP1 as [HPb1 HPy].
      apply Forall_cons in HPy as [HPy _].
      simpl. apply Forall_app. split; [|by repeat constructor].
      apply StronglySorted_app in Hsorted as (Hle & _ & _).
      rewrite Forall_forall in *. intros a Ha.
      destruct (comp x a) eqn:Hxa; [|done].
      specialize (Hle a y Ha ltac:(by left)). unfold not_after in Hle.
      pose proof (swo_lt_le x a y Hx (HPb1 a Ha) HPy Hxa Hle). congruence.
    + rewrite Forall_forall in *. intros z Hz. apply Hall.
      by apply elem_of_rev.
Qed.

Lemma insert_list_sorted x s :
  s <> [] -> P x -> Forall P s -> StronglySorted (not_after comp) s ->
  exists r,
    insert_list comp x s = Some r
    /\ r ≡ₚ s ++ [x]
    /\ StronglySorted (not_after comp) r
    /\ forall c, P c ->
         List.filter (equiv_by comp c) r = List.filter (equiv_by comp c) (s ++ [x]).
Proof.
  intros Hs Hx HP Hsorted.
  destruct (insert_list_split x s Hs Hx HP Hsorted) as (w1 & w2 & -> & -> & H1 & H2).
  eexists. split; [done|].
  apply Forall_app in HP as [HP1 HP2].
  split; [|split].
  - rewrite <- app_assoc. apply Permutation_app_head.
    rewrite <- Permutation_cons_append. done.
  - apply StronglySorted_app in Hsorted as (Hle & Hs1 & Hs2).
    apply StronglySorted_app. split; [|split; [done|]].
    + intros a b Ha Hb. apply elem_of_cons in Hb as [->|Hb]; [|by apply Hle].
      rewrite Forall_forall in H1. by apply H1.
    + constructor; [done|]. rewrite Forall_forall in *. intros z Hz.
      unfold not_after. apply swo_asym; auto.
  - intros c Hc. rewrite <- app_assoc. rewrite !List.filter_app. f_equal.
    simpl. destruct (equiv_by comp c x) eqn:Hcx; [|by rewrite app_nil_r].
    assert (Hnone : List.filter (equiv_by comp c) w2 = []).
    { clear Hsorted Hs. revert H2 HP2.
      induction w2 as [|z w2 IH]; intros H2 HP2; [done|]. simpl.
      apply Forall_cons in H2 as [Hz H2]. apply Forall_cons in HP2 as [HPz HP2].
      rewrite (swo_equiv_not_lt c x z) by done. by apply IH. }
    by rewrite Hnone.
Qed.

(** The insertion sort returns, keeps the elements, orders them, and leaves
    equivalent elements in the order they had. *)
Lemma insertion_sort_list_sorted s rest :
  s <> [] -> Forall P (s ++ rest) -> StronglySorted (not_after comp) s ->
  exists r,
    insertion_sort_list comp s rest = Some r
    /\ r ≡ₚ s ++ rest
    /\ StronglySorted (not_after comp) r
    /\ forall c, P c ->
         List.filter (equiv_by comp c) r = List.filter (equiv_by comp c) (s ++ rest).
Proof.
  revert s. induction rest as [|x rest IH]; intros s Hs HP Hsorted.
  - exists s. rewrite app_nil_r. done.
  - apply Forall_app in HP as [HPs HPr]. apply Forall_cons in HPr as [HPx HPr].
    destruct (insert_list_sorted x s Hs HPx HPs Hsorted) as (s' & Hins & Hperm & Hs' & Hf).
    simpl. rewrite Hins. simpl.
    destruct (IH s') as (r & -> & Hperm' & Hr & Hf').
    + intros ->. apply Permutation_nil_l in Hperm. by destruct s.
    + apply Forall_app. split; [|done]. rewrite Hperm.
      apply Forall_app. split; [done|by constructor].
    + done.
    + exists r. split; [done|]. split; [|split; [done|]].
      * rewrite Hperm', Hperm. by rewrite <- app_assoc.
      * intros c Hc. rewrite (Hf' c Hc). rewrite List.filter_app.
        rewrite (Hf c Hc). rewrite <- List.filter_app.
        by rewrite <- app_assoc.
Qed.

(** Up to 16 elements, [std::sort] is a stable sort. *)
Lemma std_sort_small_stable v :
  (length v <= 16)%nat -> Forall P v ->
  exists r,
    std_sort comp v = Some r
    /\ r ≡ₚ v
    /\ StronglySorted (not_after comp) r
    /\ forall c, P c ->
         List.filter (equiv_by comp c) r = List.filter (equiv_by comp c) v.
Proof.
  intros Hlen HP. rewrite std_sort_small by done.
  destruct v as [|x rest].
  - exists []. repeat split; try done. constructor.
  - apply (insertion_sort_list_sorted [x] rest); [done|done|].
    repeat constructor.
Qed.
End insertion_order.

Ltac rank_cases x y :=
  destruct x as [[]|[]| |[] ? ?], y as [[]|[]| |[] ? ?]; try discriminate;
  cbn [SFcompare rank fst snd];
  repeat match goal with
    | |- context [IntDef.Z.compare ?a ?b] =>
        change (IntDef.Z.compare a b) with (a ?= b);
        destruct (Z.compare_spec a b)
    | |- context [PosDef.Pos.compare_cont Eq ?a ?b] =>
        change (PosDef.Pos.compare_cont Eq a b) with (Pos.compare a b);
        destruct (Pos.compare_spec a b)
    end;
  cbn [CompOpp]; subst;
  let K := fresh in
  first [ split; [discriminate|intros K; exfalso; simpl in K; lia]
        | split; [intros _; simpl; lia|reflexivity] ].

Lemma dlt_rank x y :
  is_nan x = false -> is_nan y = false ->
  (dlt x y = true <-> lex_lt (rank x) (rank y)).
Proof. intros Hx Hy. unfold dlt, SFltb, lex_lt. rank_cases x y. Qed.

Lemma dle_rank x y :
  is_nan x = false -> is_nan y = false ->
  (dle x y = true <-> ~ lex_lt (rank y) (rank x)).
Proof. intros Hx Hy. unfold dle, SFleb, lex_lt. rank_cases x y. Qed.

Lemma deq_rank x y :
  is_nan x = false -> is_nan y = false ->
  (deq x y = true <-> ~ lex_lt (rank x) (rank y) /\ ~ lex_lt (rank y) (rank x)).
Proof. intros Hx Hy. unfold deq, SFeqb, lex_lt. rank_cases x y. Qed.

Lemma dlt_false_rank x y :
  is_nan x = false -> is_nan y = false ->
  (dlt x y = false <-> ~ lex_lt (rank x) (rank y)).
Proof.
  intros Hx Hy. rewrite <- (dlt_rank x y Hx Hy). by destruct (dlt x y).
Qed.

Lemma deq_nan_r x y : is_nan y = true -> deq x y = false.
Proof. destruct y; try discriminate. intros _. by destruct x as [[]|[]| |[]]. Qed.

Ltac rank_order :=
  repeat match goal with
    | H : dlt _ _ = true |- _ => apply dlt_rank in H; [|done..]
    | H : dlt _ _ = false |- _ => apply dlt_false_rank in H; [|done..]
    | |- dlt _ _ = true => apply dlt_rank; [done..|]
    | |- dlt _ _ = false => apply dlt_false_rank; [done..|]
    end;
  unfold lex_lt in *;
  repeat match goal with
    | |- context [rank ?x] =>
        let a := fresh "a" in let b := fresh "b" in let c := fresh "c" in
        destruct (rank x) as [[a b] c]
    | H : context [rank ?x] |- _ =>
        let a := fresh "a" in let b := fresh "b" in let c := fresh "c" in
        destruct (rank x) as [[a b] c]
    end;
  simpl in *; lia.

Lemma by_cpu_swo : strict_weak_order not_nan by_cpu.
Proof.
  split; unfold not_nan, by_cpu, equiv_by, dgt; fold dlt.
  - intros a Ha. change (dlt (cpuPercent a) (cpuPercent a) = false). rank_order.
  - intros a b c Ha Hb Hc H1 H2.
    change (dlt (cpuPercent b) (cpuPercent a) = true) in H1.
    change (dlt (cpuPercent c) (cpuPercent b) = true) in H2.
    change (dlt (cpuPercent c) (cpuPercent a) = true). rank_order.
  - intros a b c Ha Hb Hc H1 H2.
    change (negb (dlt (cpuPercent b) (cpuPercent a))
            && negb (dlt (cpuPercent a) (cpuPercent b)) = true) in H1.
    change (negb (dlt (cpuPercent c) (cpuPercent b))
            && negb (dlt (cpuPercent b) (cpuPercent c)) = true) in H2.
    change (negb (dlt (cpuPercent c) (cpuPercent a))
            && negb (dlt (cpuPercent a) (cpuPercent c)) = true).
    apply andb_true_iff in H1 as [H1 H1']. apply andb_true_iff in H2 as [H2 H2'].
    apply negb_true_iff in H1, H1', H2, H2'.
    apply andb_true_iff. split; apply negb_true_iff; rank_order.
Qed.

Lemma by_pid_swo : strict_weak_order (fun _ => True) by_pid.
Proof.
  split; unfold by_pid, equiv_by.
  - intros. lia.
  - intros. lia.
  - intros a b c _ _ _ H1 H2. lia.
Qed.

Lemma StronglySorted_weaken {A} (R1 R2 : A -> A -> Prop) (Q : A -> Prop) l :
  (forall a b, Q a -> Q b -> R1 a b -> R2 a b) ->
  Forall Q l -> StronglySorted R1 l -> StronglySorted R2 l.
Proof.
  intros Himp HQ Hs. induction Hs as [|a l Hs IH Hall]; [constructor|].
  apply Forall_cons in HQ as [Ha HQ]. constructor; [by apply IH|].
  rewrite Forall_forall in *. intros b Hb. apply Himp; auto.
Qed.

Lemma filter_ext_Forall {A} (f g : A -> bool) (Q : A -> Prop) l :
  (forall a, Q a -> f a = g a) -> Forall Q l -> List.filter f l = List.filter g l.
Proof.
  intros Hfg HQ. induction HQ as [|a l Ha HQ IH]; [done|].
  simpl. by rewrite (Hfg a Ha), IH.
Qed.

Lemma equiv_by_cpu c p :
  is_nan c = false -> not_nan p ->
  equiv_by by_cpu (with_percent c) p = deq (cpuPercent p) c.
Proof.
  intros Hc Hp. unfold not_nan in Hp. unfold equiv_by, by_cpu, dgt. simpl. fold dlt.
  change (SFltb (cpuPercent p) c) with (dlt (cpuPercent p) c).
  change (SFltb c (cpuPercent p)) with (dlt c (cpuPercent p)).
  destruct (deq (cpuPercent p) c) eqn:E.
  - apply deq_rank in E as [E1 E2]; [|done..].
    apply dlt_false_rank in E1, E2; [|done..]. by rewrite E1, E2.
  - destruct (dlt (cpuPercent p) c) eqn:E1; [done|].
    destruct (dlt c (cpuPercent p)) eqn:E2; [done|]. exfalso.
    apply dlt_false_rank in E1, E2; [|done..].
    assert (deq (cpuPercent p) c = true) by (apply deq_rank; done). congruence.
Qed.

Lemma equiv_by_pid k p : equiv_by by_pid (with_pid k) p = (pid p =? k).
Proof. unfold equiv_by, by_pid. simpl. lia. Qed.

(** C2, amended.  When at most 16 entries are sorted and no percentage is
    NaN, both sorts return a reordering of the entries that is ordered (by
    percentage from high to low, or by identifier from low to high) and in
    which the entries of one percentage (or one identifier) keep the order of
    the enumeration.  So percentages 10, 10, 5 in the order A, B, C stay
    A, B, C, and identifiers 30, 10, 20 come out as 10, 20, 30. *)
Theorem sort_stable_up_to_16_entries (procs : list ProcInfo) :
  (length procs <= 16)%nat ->
  Forall (fun p => is_nan (cpuPercent p) = false) procs ->
  (exists sorted,
      sort_procs true procs = Some sorted
      /\ sorted ≡ₚ procs
      /\ StronglySorted (fun a b => dle (cpuPercent b) (cpuPercent a) = true) sorted
      /\ forall c, List.filter (fun p => deq (cpuPercent p) c) sorted
                   = List.filter (fun p => deq (cpuPercent p) c) procs)
  /\ (exists sorted,
      sort_procs false procs = Some sorted
      /\ sorted ≡ₚ procs
      /\ StronglySorted (fun a b => pid a <= pid b) sorted
      /\ forall k, List.filter (fun p => pid p =? k) sorted
                   = List.filter (fun p => pid p =? k) procs)
  /\ (forall a b c,
      cpuPercent a = double_of_Z 10 -> cpuPercent b = double_of_Z 10 ->
      cpuPercent c = double_of_Z 5 ->
      sort_procs true [a; b; c] = Some [a; b; c])
  /\ (forall a b c,
      pid a = 30 -> pid b = 10 -> pid c = 20 ->
      sort_procs false [a; b; c] = Some [b; c; a]).
Proof.
  intros Hlen Hnan. split; [|split; [|split]].
  - destruct (std_sort_small_stable by_cpu not_nan by_cpu_swo procs Hlen Hnan)
      as (r & Hr & Hperm & Hsorted & Hstable).
    exists r. split; [done|]. split; [done|].
    assert (Hnan' : Forall not_nan r) by by rewrite Hperm.
    split.
    + apply (StronglySorted_weaken (not_after by_cpu) _ not_nan); [|done|done].
      intros a b Ha Hb Hab. unfold not_after, by_cpu, dgt in Hab.
      change (dlt (cpuPercent a) (cpuPercent b) = false) in Hab.
      apply dlt_false_rank in Hab; [|done..]. by apply dle_rank.
    + intros c. destruct (is_nan c) eqn:Hc.
      * rewrite (filter_ext_Forall _ (fun _ => false) (fun _ => True) r);
          [|intros; by apply deq_nan_r|by apply Forall_true].
        rewrite (filter_ext_Forall _ (fun _ => false) (fun _ => True) procs);
          [|intros; by apply deq_nan_r|by apply Forall_true].
        clear. induction r; simpl; [|done]. by induction procs.
      * rewrite <- (filter_ext_Forall (equiv_by by_cpu (with_percent c)) _ not_nan r);
          [|intros; by apply equiv_by_cpu|done].
        rewrite <- (filter_ext_Forall (equiv_by by_cpu (with_percent c)) _ not_nan procs);
          [|intros; by apply equiv_by_cpu|done].
        by apply Hstable.
  - destruct (std_sort_small_stable by_pid (fun _ => True) by_pid_swo procs Hlen
                ltac:(by apply Forall_true))
      as (r & Hr & Hperm & Hsorted & Hstable).
    exists r. split; [done|]. split; [done|]. split.
    + apply (StronglySorted_weaken (not_after by_pid) _ (fun _ => True));
        [|by apply Forall_true|done].
      intros a b _ _. unfold not_after, by_pid. lia.
    + intros k.
      rewrite <- (filter_ext_Forall (equiv_by by_pid (with_pid k)) _ (fun _ => True) r);
        [|intros; by apply equiv_by_pid|by apply Forall_true].
      rewrite <- (filter_ext_Forall (equiv_by by_pid (with_pid k)) _ (fun _ => True) procs);
        [|intros; by apply equiv_by_pid|by apply Forall_true].
      by apply Hstable.
  - intros [pa na ca] [pb nb cb] [pc nc cc]. simpl. intros -> -> ->. reflexivity.
  - intros [pa na ca] [pb nb cb] [pc nc cc]. simpl. intros -> -> ->. reflexivity.
Qed.

Lemma sort_stable_up_to_16_entries_witness :
  exists sorted,
    sort_procs true (firstn 4 seventeen_idle
                     ++ [ {| pid := 812; name := "svchost.exe";
                             cpuPercent := double_of_Z 10 |} ]) = Some sorted
    /\ List.filter (fun p => deq (cpuPercent p) d0) sorted = firstn 4 seventeen_idle.
Proof.
  destruct (sort_stable_up_to_16_entries
              (firstn 4 seventeen_idle
               ++ [ {| pid := 812; name := "svchost.exe";
                       cpuPercent := double_of_Z 10 |} ]))
    as ((sorted & Hs & _ & _ & Hstable) & _).
  - simpl. lia.
  - repeat constructor.
  - exists sorted. split; [exact Hs|]. rewrite (Hstable d0). reflexivity.
Defined.

(** C2, as stated, fails.  Seventeen entries with percentage 0, enumerated
    with identifiers 1 to 17, leave the descending sort in another order:
    the partition step of the introsort swaps entries that compare equal. *)
Lemma std_sort_reorders_equal_percentages :
  Forall (fun p => cpuPercent p = d0) seventeen_idle
  /\ map pid seventeen_idle
     = [1; 2; 3; 4; 5; 6; 7; 8; 9; 10; 11; 12; 13; 14; 15; 16; 17]
  /\ sort_procs true seventeen_idle
     = Some (map idle [9; 17; 16; 15; 14; 13; 12; 11; 10; 1; 8; 7; 6; 5; 4; 3; 2])
  /\ ~ (forall sorted,
          sort_procs true seventeen_idle = Some sorted ->
          List.filter (fun p => deq (cpuPercent p) d0) sorted
          = List.filter (fun p => deq (cpuPercent p) d0) seventeen_idle).
Proof.
  assert (Hsort : sort_procs true seventeen_idle
                  = Some (map idle [9; 17; 16; 15; 14; 13; 12; 11; 10; 1; 8; 7; 6;
                                    5; 4; 3; 2])).
  { vm_compute. reflexivity. }
  split; [|split; [|split]].
  - repeat constructor.
  - reflexivity.
  - exact Hsort.
  - intros H. specialize (H _ Hsort). vm_compute in H. discriminate H.
Qed.

(** ** The statements on the sample host *)

Lemma sample_entries_and_eviction_witness :
  (maps demo_session !!! main_prevTimes) !! 999 = Some 77
  /\ (maps (snd (sample demo_os 6000 demo_session)) !!! main_prevTimes) !! 999 = None.
Proof.
  split; [reflexivity|].
  apply (sample_entries_and_eviction demo_os 6000 demo_session).
  rewrite list_elem_of_In. simpl. intros [H|[H|[H|[H|[]]]]]; discriminate H.
Defined.

(** The two maps have to be distinct objects: a call that is handed the same
    map twice writes to the map of the previous sample. *)
Example aliased_maps_are_written :
  snd (SnapshotProcesses demo_os main_prevTimes 5000 6000 main_prevTimes demo_store)
    !! main_prevTimes
  <> demo_store !! main_prevTimes.
Proof.
  intros H.
  assert (H' : (snd (SnapshotProcesses demo_os main_prevTimes 5000 6000
                       main_prevTimes demo_store) !!! main_prevTimes) !! 1520
               = (demo_store !!! main_prevTimes) !! 1520).
  { by rewrite !lookup_total_alt, H. }
  vm_compute in H'. discriminate H'.
Qed.

(** A whole session on the sample host: the first table shows the four
    processes by percentage, then the operator asks to end process 4242, which
    does not exist, and quits after the next table. *)
Example main_on_sample_host :
  main demo_os 5000 [(demo_os, 6000); (demo_os, 8000)]
       {| OpenProcess_TERMINATE := fun _ => false;
          TerminateProcess := fun _ => false;
          GetLastError := 87 |}
       ["k 4242"%string; ""%string; "q"%string]
  = Some [ Header 2 true;
           Row 4 "System" d0;
           Row 812 "svchost.exe" d0;
           Row 1520 "notepad.exe" d0;
           Row 2044 "calc.exe" d0;
           Prompt; CannotOpen 4242 87; PressEnter;
           Header 2 true;
           Row 4 "System" d0;
           Row 812 "svchost.exe" d0;
           Row 1520 "notepad.exe" d0;
           Row 2044 "calc.exe" d0;
           Prompt; Exiting ].
Proof. vm_compute. reflexivity. Qed.

(** ** The embedding of [std::sort] on longer inputs

    Twenty and eighteen pairs compared on their first component; the second
    component numbers them in the order of the input.  The results are the
    ones libstdc++ returns: ordered, with equal keys out of their input
    order.  The second example takes the heapsort path. *)

Example std_sort_twenty_pairs :
  std_sort (fun a b : Z * Z => fst a <? fst b)
    [(7, 0); (1, 1); (6, 2); (0, 3); (5, 4); (10, 5); (4, 6); (9, 7); (3, 8);
     (8, 9); (2, 10); (7, 11); (1, 12); (6, 13); (0, 14); (5, 15); (10, 16);
     (4, 17); (9, 18); (3, 19)]
  = Some
    [(0, 14); (0, 3); (1, 1); (1, 12); (2, 10); (3, 8); (3, 19); (4, 6);
     (4, 17); (5, 4); (5, 15); (6, 13); (6, 2); (7, 0); (7, 11); (8, 9);
     (9, 7); (9, 18); (10, 5); (10, 16)].
Proof. vm_compute. reflexivity. Qed.

Example partial_sort_eighteen_pairs :
  partial_sort (fun a b : Z * Z => fst a <? fst b) 0 18 18
    [(7, 0); (10, 1); (2, 2); (5, 3); (8, 4); (0, 5); (3, 6); (6, 7); (9, 8);
     (1, 9); (4, 10); (7, 11); (10, 12); (2, 13); (5, 14); (8, 15); (0, 16);
     (3, 17)]
  = Some
    [(0, 16); (0, 5); (1, 9); (2, 13); (2, 2); (3, 17); (3, 6); (4, 10);
     (5, 3); (5, 14); (6, 7); (7, 0); (7, 11); (8, 15); (8, 4); (9, 8);
     (10, 1); (10, 12)].
Proof. vm_compute. reflexivity. Qed.

(** * Further properties of the code *)

(** ** Text and commands *)

Lemma chars_inj s t : chars s = chars t -> s = t.
Proof.
  intros H. rewrite <- (string_of_list_ascii_of_string s),
    <- (string_of_list_ascii_of_string t). unfold chars in H. by rewrite H.
Qed.

Lemma chars_length s : length (chars s) = String.length s.
Proof. induction s; simpl; congruence. Qed.

Lemma chars_append s t : chars (s ++ t)%string = (chars s ++ chars t)%list.
Proof. induction s; simpl; [done|]. by rewrite IHs. Qed.

Lemma chars_substring a n s : chars (substring a n s) = take n (drop a (chars s)).
Proof.
  revert a n. induction s as [|c s IH]; intros a n.
  - destruct a, n; done.
  - destruct a as [|a]; simpl.
    + destruct n as [|n]; simpl; [done|]. f_equal. apply (IH 0%nat n).
    + apply IH.
Qed.

(** [find_first_not_of] gives the place of the first character outside
    [cs]; there is none exactly when every character is in [cs]. *)
Lemma find_first_not_of_spec cs i s :
  match find_first_not_of cs i s with
  | None => Forall (fun c => one_of cs c = true) (chars s)
  | Some a =>
      exists pre c rest,
        chars s = (pre ++ c :: rest)%list
        /\ Forall (fun c => one_of cs c = true) pre
        /\ one_of cs c = false
        /\ a = (i + length pre)%nat
  end.
Proof.
  revert i. induction s as [|c s IH]; intros i; simpl; [constructor|].
  destruct (one_of cs c) eqn:E.
  - specialize (IH (S i)). destruct (find_first_not_of cs (S i) s) as [a|].
    + destruct IH as (pre & c' & rest & Hs & Hpre & Hc & ->).
      exists (c :: pre), c', rest.
      split; [by rewrite Hs|]. split; [by constructor|]. split; [done|simpl; lia].
    + by constructor.
  - exists [], c, (chars s).
    split; [done|]. split; [constructor|]. split; [done|simpl; lia].
Qed.

(** [find_last_not_of] gives the place of the last such character. *)
Lemma find_last_not_of_spec cs i s :
  match find_last_not_of cs i s with
  | None => Forall (fun c => one_of cs c = true) (chars s)
  | Some b =>
      exists body c post,
        chars s = (body ++ c :: post)%list
        /\ Forall (fun c => one_of cs c = true) post
        /\ one_of cs c = false
        /\ b = (i + length body)%nat
  end.
Proof.
  revert i. induction s as [|c s IH]; intros i; simpl; [constructor|].
  specialize (IH (S i)). destruct (find_last_not_of cs (S i) s) as [b|].
  - destruct IH as (body & c' & post & Hs & Hpost & Hc & ->).
    exists (c :: body), c', post.
    split; [by rewrite Hs|]. split; [done|]. split; [done|simpl; lia].
  - destruct (one_of cs c) eqn:E.
    + by constructor.
    + exists [], c, (chars s).
      split; [done|]. split; [done|]. split; [done|simpl; lia].
Qed.

(** [trim] cuts blanks off both ends and nothing else: the string is the
    trimmed text between two runs of blanks, and the trimmed text neither
    starts nor ends with a blank. *)
Lemma trim_spec s :
  exists pre post,
    chars s = (pre ++ chars (trim s) ++ post)%list
    /\ Forall is_blank pre /\ Forall is_blank post
    /\ (forall c, head (chars (trim s)) = Some c -> one_of blank c = false)
    /\ (forall c, last (chars (trim s)) = Some c -> one_of blank c = false).
Proof.
  unfold trim.
  pose proof (find_first_not_of_spec blank 0 s) as Hf.
  pose proof (find_last_not_of_spec blank 0 s) as Hl.
  destruct (find_first_not_of blank 0 s) as [a|].
  2:{ exists (chars s), []. split; [simpl; by rewrite app_nil_r|].
      split; [done|]. split; [constructor|]. split; intros c; simpl; discriminate. }
  destruct Hf as (pre & c & rest & Hs & Hpre & Hc & ->).
  destruct (find_last_not_of blank 0 s) as [b|].
  2:{ exfalso. rewrite Hs in Hl. apply Forall_app in Hl as [_ Hl].
      apply Forall_cons in Hl as [Hl _]. congruence. }
  destruct Hl as (body & c' & post & Hs' & Hpost & Hc' & ->).
  simpl Nat.add.
  assert (Hab : (length pre <= length body)%nat).
  { destruct (decide (length pre <= length body)%nat) as [|Hn]; [done|]. exfalso.
    assert (Hlk : chars s !! length body = Some c').
    { rewrite Hs'. by apply list_lookup_middle. }
    rewrite Hs in Hlk. rewrite lookup_app_l in Hlk by lia.
    rewrite Forall_forall in Hpre.
    apply list_elem_of_lookup_2 in Hlk. apply Hpre in Hlk. congruence. }
  set (mid := drop (length pre) (body ++ [c'])).
  assert (Hmid : drop (length pre) (chars s) = (mid ++ post)%list).
  { rewrite Hs'. unfold mid.
    replace (body ++ c' :: post)%list with ((body ++ [c']) ++ post)%list
      by by rewrite <- app_assoc.
    rewrite drop_app_le; [done|]. rewrite length_app. simpl. lia. }
  assert (Hlen : length mid = (length body - length pre + 1)%nat).
  { unfold mid. rewrite length_drop, length_app. simpl. lia. }
  assert (Htrim : chars (substring (length pre) (length body - length pre + 1) s) = mid).
  { rewrite chars_substring, Hmid. rewrite <- Hlen. by rewrite take_app_length. }
  rewrite Htrim. exists pre, post. repeat split; try done.
  - rewrite <- Hmid. rewrite Hs at 2. rewrite drop_app_length.
    by rewrite Hs.
  - intros c0 Hh.
    assert (Hd : drop (length pre) (chars s) = c :: rest).
    { rewrite Hs. by rewrite drop_app_length. }
    rewrite Hmid in Hd. destruct mid as [|m mid']; [simpl in Hlen; lia|].
    simpl in Hh, Hd. congruence.
  - intros c0 Hh. unfold mid in Hh.
    rewrite drop_app_le in Hh by lia.
    rewrite last_snoc in Hh. congruence.
Qed.

Lemma trim_blank s : Forall is_blank (chars s) -> trim s = ""%string.
Proof.
  intros H. unfold trim.
  pose proof (find_first_not_of_spec blank 0 s) as Hf.
  destruct (find_first_not_of blank 0 s) as [a|]; [|done].
  destruct Hf as (pre & c & rest & Hs & _ & Hc & _). exfalso.
  rewrite Hs in H. apply Forall_app in H as [_ H].
  apply Forall_cons in H as [H _]. unfold is_blank in H. congruence.
Qed.

Lemma trim_id s :
  (forall c, head (chars s) = Some c -> one_of blank c = false) ->
  (forall c, last (chars s) = Some c -> one_of blank c = false) ->
  trim s = s.
Proof.
  intros Hh Hl. destruct (trim_spec s) as (pre & post & Hs & Hpre & Hpost & _ & _).
  assert (pre = []) as ->.
  { destruct pre as [|p pre]; [done|]. exfalso.
    apply Forall_cons in Hpre as [Hp _]. unfold is_blank in Hp.
    specialize (Hh p). rewrite Hs in Hh. specialize (Hh eq_refl).
    congruence. }
  assert (post = []) as ->.
  { destruct (last post) as [p|] eqn:E; [|by apply last_None]. exfalso.
    assert (Hp : is_blank p).
    { rewrite Forall_forall in Hpost. apply Hpost. by apply last_Some_elem_of. }
    unfold is_blank in Hp. specialize (Hl p). rewrite Hs in Hl.
    rewrite !last_app, E in Hl. specialize (Hl eq_refl). congruence. }
  simpl in Hs. rewrite app_nil_r in Hs. symmetry. by apply chars_inj.
Qed.

(** Trimming twice is trimming once. *)
Lemma trim_trim s : trim (trim s) = trim s.
Proof.
  destruct (trim_spec s) as (pre & post & _ & _ & _ & Hh & Hl).
  by apply trim_id.
Qed.

Lemma digit_facts c :
  isdigit c = true ->
  one_of blank c = false /\ isspace c = false
  /\ Ascii.eqb c "k" = false /\ Ascii.eqb c "K" = false
  /\ c <> "-"%char /\ c <> "+"%char
  /\ 0 <= Z.of_nat (nat_of_ascii c) - 48 <= 9.
Proof.
  destruct c as [[] [] [] [] [] [] [] []]; intros H; try discriminate H;
    repeat split; try reflexivity; try discriminate; vm_compute; discriminate.
Qed.

Lemma read_digits_digits s acc :
  forallb isdigit (chars s) = true ->
  read_digits s acc =
  match s with
  | EmptyString => acc
  | _ => Some (fold_left (fun acc c => 10 * acc + (Z.of_nat (nat_of_ascii c) - 48))
                 (chars s) (default 0 acc))
  end.
Proof.
  revert acc. induction s as [|c s IH]; intros acc H; [done|].
  simpl in H. apply andb_true_iff in H as [Hc Hs].
  simpl. rewrite Hc. rewrite (IH _ Hs). by destruct s.
Qed.

Lemma all_digits_head_last s :
  all_digits s ->
  (forall c, head (chars s) = Some c -> isdigit c = true)
  /\ (forall c, last (chars s) = Some c -> isdigit c = true).
Proof.
  intros [_ H]. rewrite forallb_forall in H. split; intros c Hc; apply H.
  - apply list_elem_of_In. destruct (chars s); [done|]. injection Hc as ->. by left.
  - apply list_elem_of_In. by apply last_Some_elem_of.
Qed.

Lemma trim_all_digits s : all_digits s -> trim s = s.
Proof.
  intros H. destruct (all_digits_head_last s H) as [Hh Hl].
  apply trim_id; intros c Hc; by apply digit_facts; auto.
Qed.

(** [std::stoul] on a run of digits: the number, unless it is too large. *)
Lemma stoul_all_digits s :
  all_digits s ->
  stoul s = if digits_value (chars s) >? ULONG_MAX then out_of_range
            else stoul_value (digits_value (chars s)).
Proof.
  intros H. pose proof H as [Hne Hd]. unfold stoul.
  destruct s as [|c s]; [done|].
  assert (Hc : isdigit c = true).
  { simpl in Hd. by apply andb_true_iff in Hd as [? _]. }
  destruct (digit_facts c Hc) as (_ & Hsp & _ & _ & Hm & Hp & _).
  simpl skip_space. rewrite Hsp.
  assert (Hsign : (match String c s with
                   | String "-" s' => (true, s')
                   | String "+" s' => (false, s')
                   | _ => (false, String c s)
                   end) = (false, String c s)).
  { destruct c as [[] [] [] [] [] [] [] []]; try done. }
  rewrite Hsign. rewrite (read_digits_digits _ None Hd). done.
Qed.

Lemma substring_tail c s : substring 1 (String.length (String c s) - 1) (String c s) = s.
Proof.
  apply chars_inj. rewrite chars_substring. simpl.
  rewrite Nat.sub_0_r, drop_0, <- chars_length. by rewrite take_ge.
Qed.

Lemma pidStr_all_digits s : all_digits s -> pidStr s = s.
Proof.
  intros H. pose proof H as [Hne Hd]. destruct s as [|c s]; [done|].
  assert (Hc : isdigit c = true).
  { simpl in Hd. by apply andb_true_iff in Hd as [? _]. }
  destruct (digit_facts c Hc) as (_ & _ & Hk & HK & _).
  unfold pidStr. rewrite Hk, HK. simpl orb. cbv iota.
  unfold chars in Hd. by rewrite Hd.
Qed.

Lemma pidStr_k_digits k s :
  k = "k"%char \/ k = "K"%char -> all_digits s -> pidStr (String k s) = s.
Proof.
  intros Hk H. unfold pidStr.
  replace (Ascii.eqb k "k" || Ascii.eqb k "K") with true
    by (destruct Hk as [-> | ->]; done).
  rewrite substring_tail. by apply trim_all_digits.
Qed.

Lemma trim_k_digits k s :
  k = "k"%char \/ k = "K"%char -> all_digits s -> trim (String k s) = String k s.
Proof.
  intros Hk H. destruct (all_digits_head_last s H) as [_ Hl].
  apply trim_id.
  - simpl. intros c [= <-]. by destruct Hk as [-> | ->].
  - intros c Hc. simpl in Hc. rewrite last_cons in Hc.
    destruct H as [Hne _].
    destruct (last (chars s)) as [l|] eqn:E.
    + injection Hc as <-. apply digit_facts. by apply Hl.
    + apply last_None in E. exfalso. apply Hne. apply chars_inj. by rewrite E.
Qed.

Lemma digits_fold_nonneg l a :
  forallb isdigit l = true -> 0 <= a ->
  0 <= fold_left (fun acc c => 10 * acc + (Z.of_nat (nat_of_ascii c) - 48)) l a.
Proof.
  revert a. induction l as [|c l IH]; intros a H Ha; [done|].
  simpl in H. apply andb_true_iff in H as [Hc Hl]. simpl.
  apply IH; [done|]. destruct (digit_facts c Hc) as (_ & _ & _ & _ & _ & _ & ?). lia.
Qed.

Lemma digits_value_nonneg s : all_digits s -> 0 <= digits_value (chars s).
Proof. intros [_ H]. by apply digits_fold_nonneg. Qed.

Lemma kill_all_digits api s stdin :
  all_digits s ->
  kill api s stdin =
  ([terminate_report api (digits_value (chars s)); PressEnter], snd (getline stdin)).
Proof.
  intros H. pose proof (digits_value_nonneg s H) as Hn.
  unfold kill, terminate_report. rewrite (stoul_all_digits s H).
  destruct H as [Hne _]. destruct s as [|c s]; [done|].
  destruct (digits_value (chars (String c s)) >? ULONG_MAX) eqn:E; [done|].
  rewrite wrap32_small; [done|]. unfold is_u32, ULONG_MAX in *. lia.
Qed.

(** X17.  A bare number and the same number behind [k] or [K] are one and the
    same terminate request, for the process of that number. *)
Theorem bare_number_is_terminate_request api k line stdin s :
  all_digits line -> k = "k"%char \/ k = "K"%char ->
  command api (line :: stdin) s =
    (Continue, s, [Prompt; terminate_report api (digits_value (chars line)); PressEnter],
     snd (getline stdin))
  /\ command api (String k line :: stdin) s = command api (line :: stdin) s.
Proof.
  intros H Hk.
  assert (H1 : command api (line :: stdin) s =
    (Continue, s, [Prompt; terminate_report api (digits_value (chars line)); PressEnter],
     snd (getline stdin))).
  { unfold command. simpl getline. cbv beta iota.
    rewrite (trim_all_digits line H).
    destruct (pidStr_nonempty line) as (-> & -> & ->).
    { rewrite (pidStr_all_digits line H). by destruct H. }
    rewrite (pidStr_all_digits line H), (kill_all_digits api line stdin H). done. }
  split; [exact H1|]. rewrite H1.
  unfold command. simpl getline. cbv beta iota.
  rewrite (trim_k_digits k line Hk H).
  destruct (pidStr_nonempty (String k line)) as (-> & -> & ->).
  { rewrite (pidStr_k_digits k line Hk H). by destruct H. }
  rewrite (pidStr_k_digits k line Hk H), (kill_all_digits api line stdin H). done.
Qed.

(** X14.  A line of blanks, or the end of the input, refreshes the table: the
    loop goes on with the session as it is. *)
Theorem blank_line_refreshes api stdin s :
  Forall is_blank (chars (fst (getline stdin))) ->
  command api stdin s = (Continue, s, [Prompt], snd (getline stdin)).
Proof.
  intros H. unfold command. destruct (getline stdin) as [cmd rest]. simpl in *.
  by rewrite (trim_blank cmd H).
Qed.

(** X15.  Whatever is typed, the rolling map and tick stay; the loop ends exactly
    on [q] or [Q], and the sort order flips exactly on [s] or [S]. *)
Theorem command_dispatch api stdin s :
  let cmd := trim (fst (getline stdin)) in
  let r := command api stdin s in
  maps r.1.1.2 = maps s
  /\ prevTick r.1.1.2 = prevTick s
  /\ (r.1.1.1 = Break <-> cmd = "q"%string \/ cmd = "Q"%string)
  /\ (sortByCPU r.1.1.2 = negb (sortByCPU s) <-> cmd = "s"%string \/ cmd = "S"%string)
  /\ head r.1.2 = Some Prompt.
Proof.
  intros cmd r. subst cmd r. unfold command.
  destruct (getline stdin) as [line rest]. simpl fst.
  destruct (String.eqb_spec (trim line) ""%string) as [E0|E0].
  { rewrite E0. simpl. repeat split; try done; try (intros [|]; done).
    by destruct (sortByCPU s). }
  destruct (String.eqb_spec (trim line) "q"%string) as [Eq|Eq].
  { rewrite Eq. simpl. repeat split; try done; try (intros [|]; done); auto.
    by destruct (sortByCPU s). }
  destruct (String.eqb_spec (trim line) "Q"%string) as [EQ|EQ].
  { rewrite EQ. simpl. repeat split; try done; try (intros [|]; done); auto.
    by destruct (sortByCPU s). }
  simpl orb. cbv iota.
  destruct (String.eqb_spec (trim line) "s"%string) as [Es|Es].
  { rewrite Es. simpl. repeat split; try done; try (intros [|]; done); auto. }
  destruct (String.eqb_spec (trim line) "S"%string) as [ES|ES].
  { rewrite ES. simpl. repeat split; try done; try (intros [|]; done); auto. }
  simpl orb. cbv iota.
  destruct (kill api (pidStr (trim line)) rest) as [out rest'] eqn:K. simpl.
  repeat split; try done; try (intros [|]; done).
  by destruct (sortByCPU s).
Qed.

(** X16.  A command that does not start with [k] or [K] and is not a number
    prints nothing but the prompt and reads no further line: a word that is
    not a command is passed over in silence. *)
Theorem unknown_command_ignored api line stdin s c rest :
  chars (trim line) = c :: rest ->
  Ascii.eqb c "k" || Ascii.eqb c "K" = false ->
  forallb isdigit (c :: rest) = false ->
  (command api (line :: stdin) s).1.2 = [Prompt]
  /\ (command api (line :: stdin) s).2 = stdin.
Proof.
  intros Hc Hk Hd. unfold command. simpl getline. cbv beta iota.
  assert (Hp : pidStr (trim line) = ""%string).
  { unfold pidStr. destruct (trim line) as [|c' t] eqn:E; [done|].
    unfold chars in Hc. simpl in Hc. injection Hc as Hc1 Hc2. subst c' rest.
    rewrite Hk. change (list_ascii_of_string (String c t)) with (c :: list_ascii_of_string t).
    by rewrite Hd. }
  destruct (String.eqb (trim line) ""); [done|].
  destruct (String.eqb (trim line) "q" || String.eqb (trim line) "Q"); [done|].
  destruct (String.eqb (trim line) "s" || String.eqb (trim line) "S"); [done|].
  rewrite Hp. simpl. done.
Qed.

Lemma read_digits_nonneg s acc n :
  (forall a, acc = Some a -> 0 <= a) ->
  read_digits s acc = Some n -> 0 <= n.
Proof.
  revert acc. induction s as [|c s IH]; intros acc Hacc; simpl; [by apply Hacc|].
  destruct (isdigit c) eqn:Hc; [|by apply Hacc].
  apply IH. intros a [= <-].
  destruct (digit_facts c Hc) as (_ & _ & _ & _ & _ & _ & ?).
  assert (0 <= default 0 acc) by (destruct acc as [a|]; simpl; [by apply Hacc|lia]).
  lia.
Qed.

(** X18.  The number that [std::stoul] returns fits a [DWORD]: the cast of line
    225 changes nothing. *)
Theorem stoul_value_fits_DWORD s n :
  stoul s = stoul_value n -> is_u32 n /\ wrap32 n = n.
Proof.
  intros H. assert (Hr : is_u32 n); [|split; [done|by apply wrap32_small]].
  revert H. unfold stoul.
  destruct (match skip_space s with
            | String "-" s' => (true, s')
            | String "+" s' => (false, s')
            | _ => (false, skip_space s)
            end) as [negative s'].
  destruct (read_digits s' None) as [m|] eqn:E; [|done].
  pose proof (read_digits_nonneg s' None m ltac:(done) E) as Hm.
  destruct (m >? ULONG_MAX) eqn:Hmax; [done|].
  intros [= <-]. destruct negative; [apply wrap32_range|].
  unfold is_u32, ULONG_MAX in *. lia.
Qed.

(** ** Elapsed ticks, in general *)

(** X1.  For tick readings of 32 bits no step of line 74 leaves the 32-bit range:
    the result is [cur - prev] when the counter did not wrap, and otherwise
    [0xFFFFFFFF - prev + cur], one less than the ticks that went by. *)
Theorem elapsed_ticks_in_range prev cur :
  is_u32 prev -> is_u32 cur ->
  is_u32 (MAX_TICK - prev)
  /\ (prev <= cur -> deltaMs prev cur = cur - prev)
  /\ (cur < prev -> deltaMs prev cur = MAX_TICK - prev + cur
                    /\ deltaMs prev cur = wrap32 (cur - prev) - 1)
  /\ is_u32 (deltaMs prev cur).
Proof.
  intros Hp Hc. destruct (deltaMs_formula prev cur Hp Hc) as [Hf Hr].
  split; [unfold is_u32, MAX_TICK in *; lia|].
  split; [|split; [|done]].
  - intros Hle. rewrite Hf. destruct (cur >=? prev) eqn:E; lia.
  - intros Hlt. split; [|by apply deltaMs_after_wrap].
    rewrite Hf. destruct (cur >=? prev) eqn:E; lia.
Qed.

(** X2.  The elapsed count is 0, so that line 94 leaves every percentage at 0,
    exactly when the two readings are equal or the counter went from
    [0xFFFFFFFF] to [0]. *)
Theorem elapsed_zero_iff prev cur :
  is_u32 prev -> is_u32 cur ->
  (deltaMs prev cur = 0 <-> cur = prev \/ (prev = MAX_TICK /\ cur = 0)).
Proof.
  intros Hp Hc. destruct (deltaMs_formula prev cur Hp Hc) as [-> _].
  unfold is_u32, MAX_TICK in *. destruct (cur >=? prev) eqn:E; lia.
Qed.

(** ** Counters *)

Lemma lor_shiftl_32 hi lo :
  0 <= hi -> 0 <= lo < 2 ^ 32 -> Z.lor (Z.shiftl hi 32) lo = hi * 2 ^ 32 + lo.
Proof.
  intros Hhi Hlo.
  assert (Hland : Z.land (Z.shiftl hi 32) lo = 0).
  { apply Z.bits_inj'. intros n Hn. rewrite Z.land_spec, Z.bits_0.
    destruct (Z.lt_ge_cases n 32).
    - rewrite Z.shiftl_spec_low by lia. done.
    - rewrite (Z.bits_above_log2 lo n); [by rewrite andb_false_r|lia|].
      destruct (Z.eq_dec lo 0) as [->|]; [simpl; lia|].
      apply Z.lt_le_trans with 32; [|done]. apply Z.log2_lt_pow2; lia. }
  rewrite <- (Z.lxor_lor _ _ Hland), <- (Z.add_nocarry_lxor _ _ Hland).
  by rewrite Z.shiftl_mul_pow2 by lia.
Qed.

(** X3.  The two halves of a [FILETIME] make the 64-bit number
    [high * 2^32 + low], and two times with the same number are the same
    time. *)
Theorem FileTimeToULL_value ft :
  is_u32 (dwLowDateTime ft) -> is_u32 (dwHighDateTime ft) ->
  FileTimeToULL ft = dwHighDateTime ft * 2 ^ 32 + dwLowDateTime ft
  /\ is_u64 (FileTimeToULL ft)
  /\ dwLowDateTime ft = FileTimeToULL ft mod 2 ^ 32
  /\ dwHighDateTime ft = FileTimeToULL ft / 2 ^ 32.
Proof.
  intros Hlo Hhi. unfold FileTimeToULL.
  rewrite !wrap32_small by done. unfold is_u32, is_u64 in *.
  rewrite lor_shiftl_32 by lia.
  split; [done|]. split; [lia|]. split.
  - rewrite Z.add_comm, Z.mod_add by lia. by rewrite Z.mod_small.
  - rewrite Z.add_comm, Z.div_add by lia. rewrite Z.div_small by lia. lia.
Qed.

(** ** Consecutive cycles *)

Lemma read_time_range os i k t : read_time os i k = Some t -> is_u64 t.
Proof.
  unfold read_time, GetProcTime100ns.
  destruct (OpenProcess os i k) as [h|]; simpl; [|done].
  destruct (GetProcessTimes h); [|done]. intros [= <-]. apply wrap64_range.
Qed.

Lemma sample_prevTick os curTick s : prevTick (snd (sample os curTick s)) = curTick.
Proof. unfold sample. by destruct (snapshot_call os curTick s). Qed.

Lemma sample_sortByCPU os curTick s :
  sortByCPU (snd (sample os curTick s)) = sortByCPU s.
Proof. unfold sample. by destruct (snapshot_call os curTick s). Qed.

(** X6.  Every counter in the rolling map after a cycle was read in that cycle,
    for a snapshot entry with that identifier; it is a 64-bit value. *)
Theorem rolling_map_holds_counters_just_read os curTick s k t :
  (maps (snd (sample os curTick s)) !!! main_prevTimes) !! k = Some t ->
  is_u64 t
  /\ exists j pe, entries os !! j = Some pe /\ th32ProcessID pe = k
                  /\ read_time os j k = Some t.
Proof.
  rewrite sample_maps. intros H.
  apply recorded_lookup_Some in H as [H | (j & p & Hp & Hpid & Hrd)]; [done|].
  split; [by apply (read_time_range os (0 + j) k)|].
  destruct (enumerated_lookup_inv _ _ _ Hp) as (pe & Hpe & Hpid' & _).
  exists j, pe. split; [done|]. split; [congruence|done].
Qed.

(** X7.  The percentage of a process in a cycle compares its counter with the
    one read for its identifier in the cycle before, over the ticks between
    the two cycles. *)
Theorem percentage_compares_consecutive_samples
    os1 os2 tick1 tick2 s j1 j2 pe1 pe2 t1 t2 :
  entries os1 !! j1 = Some pe1 ->
  read_time os1 j1 (th32ProcessID pe1) = Some t1 ->
  (forall j' pe', (j1 < j')%nat -> entries os1 !! j' = Some pe' ->
     th32ProcessID pe' <> th32ProcessID pe1) ->
  entries os2 !! j2 = Some pe2 ->
  th32ProcessID pe2 = th32ProcessID pe1 ->
  read_time os2 j2 (th32ProcessID pe2) = Some t2 ->
  deltaMs tick1 tick2 > 0 ->
  fst (sample os2 tick2 (snd (sample os1 tick1 s))) !! j2 =
  Some {| pid := th32ProcessID pe2; name := szExeFile pe2;
          cpuPercent := usage (deltaMs tick1 tick2) (numCores os2) t2 t1 |}.
Proof.
  intros Hj1 Hr1 Hlast Hj2 Hsame Hr2 Hpos.
  rewrite sample_procs, sample_prevTick.
  apply SnapshotProcesses_found; try done.
  rewrite lookup_total_insert_ne by done. rewrite sample_maps, Hsame.
  pose proof (enumerated_lookup _ _ _ Hj1) as Hp1.
  apply (recorded_read_last os1 _ _ j1 _ t1 Hp1); [done|].
  intros j' p' Hlt Hp'.
  destruct (enumerated_lookup_inv _ _ _ Hp') as (pe' & Hpe' & -> & _).
  by apply (Hlast j' pe').
Qed.

(** X8.  An identifier that was not in the snapshot of the cycle before starts
    over: whatever was remembered for it earlier, its entry shows 0. *)
Theorem identifier_absent_last_cycle_reports_zero os1 os2 tick1 tick2 s j pe :
  th32ProcessID pe ∉ map th32ProcessID (entries os1) ->
  entries os2 !! j = Some pe ->
  fst (sample os2 tick2 (snd (sample os1 tick1 s))) !! j =
  Some {| pid := th32ProcessID pe; name := szExeFile pe; cpuPercent := d0 |}.
Proof.
  intros Habs Hj. rewrite sample_procs.
  pose proof (enumerated_lookup _ _ _ Hj) as Hp.
  rewrite (SnapshotProcesses_lookup _ _ _ _ _ _ _ _ Hp). f_equal.
  set (σ := <[main_curTimes:=∅]> (maps (snd (sample os1 tick1 s)))).
  set (σj := snd (query_all _ _ _ _ _ _ _ σ)).
  set (p := {| pid := th32ProcessID pe; name := szExeFile pe; cpuPercent := d0 |}).
  destruct (query_entry os2 main_prevTimes (prevTick (snd (sample os1 tick1 s)))
              tick2 main_curTimes j p σj)
    as (u & -> & [-> | (t' & prev & _ & Hfound & _)]); [done|].
  exfalso. revert Hfound.
  rewrite !lookup_total_alt, query_frame by done.
  unfold σj. rewrite query_all_frame by done. unfold σ.
  rewrite lookup_insert_ne by done. rewrite <- lookup_total_alt, sample_maps.
  simpl. intros H.
  apply recorded_lookup_Some in H as [H | (j' & q & Hq & Hpid & _)]; [done|].
  destruct (enumerated_lookup_inv _ _ _ Hq) as (pe' & Hpe' & Hpid' & _).
  apply Habs. apply list_elem_of_fmap. exists pe'. split; [congruence|].
  by apply list_elem_of_lookup_2 in Hpe'.
Qed.


(** ** The table *)

Lemma substring_length_le a n s : (String.length (substring a n s) <= n)%nat.
Proof.
  rewrite <- chars_length, chars_substring, length_take. lia.
Qed.

(** X11.  The table has the first [topN] entries, in order, with identifier and
    percentage as they are; a name of up to 38 characters is printed as
    it is, a longer one as its first 37 characters and three dots, so that
    no printed name is longer than the 40 characters of its column. *)
Theorem PrintProcesses_rows procs n :
  length (PrintProcesses procs n) = Nat.min n (length procs)
  /\ forall i r, PrintProcesses procs n !! i = Some r ->
       exists p shown,
         procs !! i = Some p /\ (i < n)%nat
         /\ r = Row (pid p) shown (cpuPercent p)
         /\ (String.length shown <= 40)%nat
         /\ ((String.length (name p) <= 38)%nat -> shown = name p)
         /\ ((38 < String.length (name p))%nat ->
             chars shown = (take 37 (chars (name p)) ++ chars "...")%list).
Proof.
  unfold PrintProcesses. split; [by rewrite length_map, length_take|].
  intros i r Hr. rewrite list_lookup_fmap in Hr.
  destruct (take n procs !! i) as [p|] eqn:Hp; [|done].
  injection Hr as <-. apply lookup_take_Some in Hp as [Hp Hi].
  eexists p, _. split; [done|]. split; [done|]. split; [done|].
  destruct (38 <? String.length (name p))%nat eqn:E.
  - apply Nat.ltb_lt in E. split; [|split; [lia|]].
    + rewrite <- chars_length, chars_append, length_app, !chars_length.
      pose proof (substring_length_le 0 37 (name p)). simpl. lia.
    + intros _. rewrite chars_append, chars_substring. by rewrite drop_0.
  - apply Nat.ltb_ge in E. split; [lia|]. split; [done|lia].
Qed.

(** ** Start-up *)

Lemma main_init_maps os tick :
  maps (main_init os tick) !!! main_prevTimes = recorded os 0 (enumerated os) ∅
  /\ maps (main_init os tick) !! main_curTimes = Some ∅
  /\ maps (main_init os tick) !! main_tmp = None
  /\ prevTick (main_init os tick) = tick
  /\ sortByCPU (main_init os tick) = true.
Proof.
  unfold main_init. simpl. split; [|split; [|split; [|done]]].
  - rewrite lookup_total_delete_ne by done.
    rewrite SnapshotProcesses_out.
    rewrite lookup_total_insert_ne by done. rewrite lookup_total_insert_ne by done.
    by rewrite lookup_total_insert_eq.
  - rewrite lookup_delete_ne by done.
    rewrite SnapshotProcesses_frame by done.
    rewrite lookup_insert_ne by done. by rewrite lookup_insert_eq.
  - by rewrite lookup_delete_eq.
Qed.

(** X9.  The first table compares each counter with the one read at start-up. *)
Theorem first_table_compares_with_startup
    os0 os1 tick0 tick1 j0 j1 pe0 pe1 t0 t1 :
  entries os0 !! j0 = Some pe0 ->
  read_time os0 j0 (th32ProcessID pe0) = Some t0 ->
  (forall j' pe', (j0 < j')%nat -> entries os0 !! j' = Some pe' ->
     th32ProcessID pe' <> th32ProcessID pe0) ->
  entries os1 !! j1 = Some pe1 ->
  th32ProcessID pe1 = th32ProcessID pe0 ->
  read_time os1 j1 (th32ProcessID pe1) = Some t1 ->
  deltaMs tick0 tick1 > 0 ->
  fst (sample os1 tick1 (main_init os0 tick0)) !! j1 =
  Some {| pid := th32ProcessID pe1; name := szExeFile pe1;
          cpuPercent := usage (deltaMs tick0 tick1) (numCores os1) t1 t0 |}.
Proof.
  intros Hj0 Hr0 Hlast Hj1 Hsame Hr1 Hpos.
  destruct (main_init_maps os0 tick0) as (Hm & _ & _ & Ht & _).
  rewrite sample_procs, Ht.
  apply SnapshotProcesses_found; try done.
  rewrite lookup_total_insert_ne by done. rewrite Hm, Hsame.
  pose proof (enumerated_lookup _ _ _ Hj0) as Hp0.
  apply (recorded_read_last os0 _ _ j0 _ t0 Hp0); [done|].
  intros j' p' Hlt Hp'.
  destruct (enumerated_lookup_inv _ _ _ Hp') as (pe' & Hpe' & -> & _).
  by apply (Hlast j' pe').
Qed.

(** ** Sorting a short table with any comparison *)

Lemma insert_list_returns {A} (comp : A -> A -> bool) x s :
  s <> [] -> exists r, insert_list comp x s = Some r /\ r ≡ₚ s ++ [x].
Proof.
  intros Hs. destruct s as [|f s]; [done|]. unfold insert_list.
  destruct (comp x f) eqn:Hxf.
  - eexists. split; [done|]. by rewrite <- Permutation_cons_append.
  - destruct (linear_insert_list_stop comp x (rev (f :: s)) [])
      as (b2 & y & b1 & Hrev & _ & _ & ->).
    { exists f. split; [|done]. rewrite elem_of_rev. by left. }
    eexists. split; [done|]. rewrite app_nil_r.
    assert (Hsplit : f :: s = rev (y :: b1) ++ rev b2).
    { rewrite <- rev_app_distr, <- Hrev. by rewrite rev_involutive. }
    rewrite Hsplit. rewrite <- app_assoc. apply Permutation_app_head.
    by rewrite <- Permutation_cons_append.
Qed.

Lemma insertion_sort_list_returns {A} (comp : A -> A -> bool) s rest :
  s <> [] -> exists r, insertion_sort_list comp s rest = Some r /\ r ≡ₚ s ++ rest.
Proof.
  revert s. induction rest as [|x rest IH]; intros s Hs.
  - exists s. by rewrite app_nil_r.
  - destruct (insert_list_returns comp x s Hs) as (s' & Hins & Hperm).
    simpl. rewrite Hins. simpl.
    destruct (IH s') as (r & -> & Hr).
    { intros ->. apply Permutation_nil_l in Hperm. by destruct s. }
    exists r. split; [done|]. rewrite Hr, Hperm. by rewrite <- app_assoc.
Qed.

(** X19.  With at most 16 entries [std::sort] stays inside the vector and returns
    the same entries, whatever the comparison answers. *)
Theorem std_sort_short_returns_same_entries {A} (comp : A -> A -> bool) v :
  (length v <= 16)%nat -> exists r, std_sort comp v = Some r /\ r ≡ₚ v.
Proof.
  intros Hlen. rewrite std_sort_small by done. destruct v as [|x rest].
  - by exists [].
  - by apply (insertion_sort_list_returns comp [x] rest).
Qed.

(** ** Percentages are finite *)

Lemma shr_fexp_mag_low m e l :
  0 < m -> -1021 <= Zdigits2 m + e <= 1000 ->
  exists mrs' e',
    shr_fexp dprec demax m e l = (mrs', e')
    /\ 0 < shr_m mrs'
    /\ Zdigits2 (shr_m mrs') + e' = Zdigits2 m + e
    /\ Zdigits2 (shr_m mrs') <= 53.
Proof.
  intros Hm Hmag. unfold shr_fexp, fexp, emin, dprec, demax.
  replace (Z.max (Zdigits2 m + e - 53) (3 - 1024 - 53)) with (Zdigits2 m + e - 53) by lia.
  replace (Zdigits2 m + e - 53 - e) with (Zdigits2 m - 53) by lia.
  assert (Hrec : shr_m (shr_record_of_loc m l) = m).
  { destruct l as [|[]]; done. }
  unfold shr. destruct (Zdigits2 m - 53) as [|n|n] eqn:Hn.
  - eexists _, _. split; [done|]. rewrite Hrec. lia.
  - eexists _, _. split; [done|].
    rewrite iter_pos_shr_1_m by lia. rewrite Hrec.
    pose proof (Zdigits2_pos_log2 m Hm) as Hdm.
    assert (Hlog : Z.log2 (m / 2 ^ Zpos n) = Z.log2 m - Zpos n).
    { rewrite <- Z.shiftr_div_pow2 by lia. rewrite Z.log2_shiftr by lia. lia. }
    assert (Hq : 0 < m / 2 ^ Zpos n).
    { apply Z.div_str_pos. split; [apply Z.pow_pos_nonneg; lia|].
      apply Z.log2_le_pow2; lia. }
    rewrite (Zdigits2_pos_log2 _ Hq). lia.
  - eexists _, _. split; [done|]. rewrite Hrec. lia.
Qed.

Lemma binary_round_aux_mag_low mx ex lx :
  0 < mx -> -1021 <= Zdigits2 mx + ex <= 970 ->
  exists m e,
    binary_round_aux dprec demax false mx ex lx = S754_finite false m e
    /\ Zdigits2 mx + ex <= Zpos (digits2_pos m) + e <= Zdigits2 mx + ex + 1.
Proof.
  intros Hm Hmag. unfold binary_round_aux.
  destruct (shr_fexp_mag_low mx ex lx Hm) as (mrs1 & e1 & -> & Hm1 & Hmag1 & Hd1); [lia|].
  set (r := round_nearest_even (shr_m mrs1) (loc_of_shr_record mrs1)).
  pose proof (round_nearest_even_bounds (shr_m mrs1) (loc_of_shr_record mrs1)) as Hr.
  fold r in Hr.
  pose proof (Zdigits2_succ _ r Hm1 Hr) as Hdr.
  destruct (shr_fexp_mag_low r e1 loc_Exact) as (mrs2 & e2 & -> & Hm2 & Hmag2 & Hd2);
    [lia|lia|].
  destruct (shr_m mrs2) as [|m2|] eqn:E; [lia| |lia].
  assert (Hd : 1 <= Zdigits2 (Zpos m2)) by (simpl; lia).
  replace (e2 <=? demax - dprec) with true by (unfold demax, dprec; lia).
  exists m2, e2. split; [done|]. simpl in *. lia.
Qed.

Lemma dmul_mag_low a b c d x y :
  pos_mag a b x -> pos_mag c d y -> -1020 <= a + c -> b + d <= 970 ->
  pos_mag (a + c - 1) (b + d + 1) (dmul x y).
Proof.
  intros (m1 & e1 & -> & H1) (m2 & e2 & -> & H2) Hlo Hhi.
  unfold dmul. simpl.
  pose proof (digits2_pos_mul m1 m2) as Hd.
  destruct (binary_round_aux_mag_low (Zpos (m1 * m2)) (e1 + e2) loc_Exact)
    as (m & e & -> & H); [lia|simpl; lia|].
  exists m, e. split; [done|]. simpl in H. lia.
Qed.

Lemma digits2_pos_bounds p :
  2 ^ (Zpos (digits2_pos p) - 1) <= Zpos p < 2 ^ Zpos (digits2_pos p).
Proof.
  rewrite Zdigits2_log2. replace (Z.log2 (Zpos p) + 1 - 1) with (Z.log2 (Zpos p)) by lia.
  pose proof (Z.log2_spec (Zpos p) ltac:(lia)) as H. unfold Z.succ in H. lia.
Qed.

Lemma Zdigits2_bounds q k :
  0 <= k -> 2 ^ k <= q < 2 ^ (k + 2) -> k + 1 <= Zdigits2 q <= k + 2.
Proof.
  intros Hk [Hlo Hhi].
  assert (Hq : 0 < q) by (pose proof (Z.pow_pos_nonneg 2 k); lia).
  rewrite (Zdigits2_pos_log2 q Hq).
  assert (k <= Z.log2 q) by (apply Z.log2_le_pow2; lia).
  assert (Z.log2 q < k + 2) by (apply Z.log2_lt_pow2; lia). lia.
Qed.

(** The quotient of two positive doubles of bounded magnitude. *)
Lemma ddiv_mag a b c d x y :
  pos_mag a b x -> pos_mag c d y -> -1000 <= a - d -> b - c <= 900 ->
  pos_mag (a - d) (b - c + 2) (ddiv x y).
Proof.
  intros (m1 & e1 & -> & H1) (m2 & e2 & -> & H2) Hlo Hhi.
  unfold ddiv. simpl.
  destruct (SFdiv_core_binary dprec demax (Zpos m1) e1 (Zpos m2) e2) as [[mz ez] lz] eqn:E.
  revert E. unfold SFdiv_core_binary. cbn [Zdigits2].
  set (d1 := Zpos (digits2_pos m1)) in *. set (d2 := Zpos (digits2_pos m2)) in *.
  unfold fexp, emin, dprec, demax. std_Z.
  set (e' := Z.min _ _).
  assert (He' : e' <= d1 + e1 - (d2 + e2) - 53 /\ e' <= e1 - e2
                /\ (e' = d1 + e1 - (d2 + e2) - 53 \/ e' = e1 - e2)).
  { subst e'. lia. }
  set (s := e1 - e2 - e').
  assert (Hs : 0 <= s /\ d2 + 53 <= d1 + s) by (subst s; lia).
  set (m' := match s with Z0 => _ | Zpos _ => _ | Zneg _ => _ end).
  assert (Hm' : m' = Zpos m1 * 2 ^ s).
  { subst m'. destruct s eqn:Es; [lia| |lia]. by rewrite Z.shiftl_mul_pow2. }
  pose proof (digits2_pos_bounds m1) as B1. pose proof (digits2_pos_bounds m2) as B2.
  fold d1 in B1. fold d2 in B2.
  assert (Hd1 : 1 <= d1) by (subst d1; lia). assert (Hd2 : 1 <= d2) by (subst d2; lia).
  assert (Bm' : 2 ^ (d1 + s - 1) <= m' < 2 ^ (d1 + s)).
  { rewrite Hm'. replace (d1 + s - 1) with (d1 - 1 + s) by lia.
    rewrite !Z.pow_add_r by lia.
    assert (0 < 2 ^ s) by (apply Z.pow_pos_nonneg; lia). nia. }
  pose proof (Z.div_eucl_eq m' (Zpos m2) ltac:(lia)) as Heq.
  pose proof (Z.mod_pos_bound m' (Zpos m2) ltac:(lia)) as Hmod.
  unfold Z.modulo in Hmod.
  destruct (Z.div_eucl m' (Zpos m2)) as [q r]. intros [= <- <- _].
  set (k := d1 + s - d2 - 1) in *.
  assert (Hk : 52 <= k) by (subst k; lia).
  assert (Bq : 2 ^ k <= q < 2 ^ (k + 2)).
  { assert (Hp1 : 2 ^ (d1 + s - 1) = 2 ^ k * 2 ^ d2).
    { rewrite <- Z.pow_add_r by lia. f_equal. subst k. lia. }
    assert (Hp2 : 2 ^ (d1 + s) = 2 ^ (k + 2) * 2 ^ (d2 - 1)).
    { rewrite <- Z.pow_add_r by lia. f_equal. subst k. lia. }
    assert (0 < 2 ^ k) by (apply Z.pow_pos_nonneg; lia).
    assert (0 < 2 ^ (k + 2)) by (apply Z.pow_pos_nonneg; lia).
    split; nia. }
  pose proof (Zdigits2_bounds q k ltac:(lia) Bq) as Hdq.
  assert (Hq : 0 < q) by (pose proof (Z.pow_pos_nonneg 2 k); lia).
  assert (Hmag : d1 + e1 - (d2 + e2) <= Zdigits2 q + e' <= d1 + e1 - (d2 + e2) + 1).
  { subst k s. lia. }
  destruct (binary_round_aux_mag_low q e' lz Hq) as (m & e & Hbr & H); [lia|].
  unfold dprec, demax in Hbr. rewrite Hbr.
  exists m, e. split; [done|]. lia.
Qed.

(** The value of lines 96-101 is 0 when the counter did not grow and
    otherwise a positive finite double, between [2^-76] and [2^61]. *)
Lemma usage_finite deltaMs numCores t100ns prev100ns :
  1 <= deltaMs < 2 ^ 32 -> 1 <= numCores < 2 ^ 32 ->
  let deltaProc := if t100ns >? prev100ns then wrap64 (t100ns - prev100ns) else 0 in
  (deltaProc = 0 -> usage deltaMs numCores t100ns prev100ns = d0)
  /\ (deltaProc <> 0 -> pos_mag (-75) 61 (usage deltaMs numCores t100ns prev100ns)).
Proof.
  intros Hd Hc deltaProc.
  pose proof (wall_cores_mag deltaMs numCores Hd Hc) as Hden.
  assert (Hp : 0 <= deltaProc < 2 ^ 64).
  { subst deltaProc. destruct (_ >? _); [apply wrap64_range|lia]. }
  unfold usage. fold deltaProc. split.
  - intros ->. rewrite double_of_Z_0.
    rewrite (ddiv_0 _ _ _ Hden). by rewrite (dmul_0 _ _ _ d100_mag).
  - intros Hnz.
    pose proof (double_of_Z_mag deltaProc 64 ltac:(lia) ltac:(lia)) as Hnum.
    pose proof (ddiv_mag _ _ _ _ _ _ Hnum Hden ltac:(lia) ltac:(lia)) as Hq.
    pose proof (dmul_mag_low _ _ _ _ _ _ Hq d100_mag ltac:(lia) ltac:(lia)) as Hu.
    destruct (nonneg_ge_0 _ (pos_mag_nonneg _ _ _ Hu)) as [_ ->].
    eapply pos_mag_weaken; [exact Hu|lia|lia].
Qed.

Lemma pos_mag_positive lo hi x : pos_mag lo hi x -> dlt d0 x = true /\ is_nan x = false.
Proof. by intros (m & e & -> & _). Qed.

(** X4.  Every percentage of a cycle is a finite number: 0, or a positive double
    between [2^-76] and [2^61]; never an infinity. *)
Theorem percentages_are_finite os prevTimes prevTick curTick outNewTimes σ :
  Forall (fun p => cpuPercent p = d0 \/ pos_mag (-75) 61 (cpuPercent p))
         (fst (SnapshotProcesses os prevTimes prevTick curTick outNewTimes σ)).
Proof.
  pose proof (deltaMs_range prevTick curTick) as Hd. unfold is_u32 in Hd.
  apply Forall_lookup_2. intros j q Hq.
  assert (Hlt : (j < length (enumerated os))%nat).
  { apply lookup_lt_Some in Hq. rewrite SnapshotProcesses_length in Hq.
    unfold enumerated. by rewrite length_map. }
  destruct (lookup_lt_is_Some_2 _ _ Hlt) as [p Hp].
  rewrite (SnapshotProcesses_lookup _ _ _ _ _ _ _ p Hp) in Hq. injection Hq as <-.
  destruct (enumerated_lookup_inv _ _ _ Hp) as (pe & _ & _ & _ & Hcpu).
  destruct (query_entry os prevTimes prevTick curTick outNewTimes j p
              (snd (query_all os prevTimes prevTick curTick outNewTimes 0
                      (take j (enumerated os)) σ)))
    as (u & -> & [-> | (t & prev & _ & _ & Hpos & ->)]); simpl; [by left|].
  destruct (usage_finite (deltaMs prevTick curTick) (numCores os) t prev
              ltac:(lia) (numCores_range os)) as [H0 H1].
  destruct (decide ((if t >? prev then wrap64 (t - prev) else 0) = 0)) as [E|E].
  - left. by apply H0.
  - right. by apply H1.
Qed.

(** X5.  A process whose counter grew since the previous sample is shown with a
    percentage above 0: no growth is lost to rounding. *)
Theorem growth_gives_positive_percentage
    os prevTimes prevTick curTick outNewTimes σ j pe t prev :
  prevTimes <> outNewTimes ->
  entries os !! j = Some pe ->
  read_time os j (th32ProcessID pe) = Some t ->
  (σ !!! prevTimes) !! th32ProcessID pe = Some prev ->
  0 <= prev < t ->
  deltaMs prevTick curTick > 0 ->
  exists u,
    fst (SnapshotProcesses os prevTimes prevTick curTick outNewTimes σ) !! j =
      Some {| pid := th32ProcessID pe; name := szExeFile pe; cpuPercent := u |}
    /\ dlt d0 u = true /\ pos_mag (-75) 61 u.
Proof.
  intros Hne Hj Hrd Hprev Hgrow Hpos.
  pose proof (deltaMs_range prevTick curTick) as Hd. unfold is_u32 in Hd.
  pose proof (read_time_range _ _ _ _ Hrd) as Ht. unfold is_u64 in Ht.
  eexists. split; [by apply SnapshotProcesses_found|].
  destruct (usage_finite (deltaMs prevTick curTick) (numCores os) t prev
              ltac:(lia) (numCores_range os)) as [_ H1].
  assert (Hu : pos_mag (-75) 61 (usage (deltaMs prevTick curTick) (numCores os) t prev)).
  { apply H1. replace (t >? prev) with true by lia.
    unfold wrap64. rewrite Z.mod_small by lia. lia. }
  split; [by apply (pos_mag_positive _ _ _ Hu)|done].
Qed.

(** ** The further properties, stated and instantiated *)

(** X12.  [trim] removes blanks at both ends and nothing else: the text is
    a run of blanks, the trimmed text and a run of blanks; the trimmed text
    neither starts nor ends with a blank, and it is empty exactly when the
    text has blanks only. *)
Theorem trim_cuts_blanks s :
  (exists pre post,
      chars s = (pre ++ chars (trim s) ++ post)%list
      /\ Forall is_blank pre /\ Forall is_blank post)
  /\ (forall c, head (chars (trim s)) = Some c -> one_of blank c = false)
  /\ (forall c, last (chars (trim s)) = Some c -> one_of blank c = false)
  /\ (trim s = ""%string <-> Forall is_blank (chars s)).
Proof.
  destruct (trim_spec s) as (pre & post & Hs & Hpre & Hpost & Hh & Hl).
  split; [by exists pre, post|]. split; [done|]. split; [done|]. split.
  - intros E. rewrite E in Hs. simpl in Hs. rewrite Hs.
    by apply Forall_app.
  - apply trim_blank.
Qed.

Lemma trim_cuts_blanks_witness : trim "  "%string = ""%string.
Proof.
  apply (proj2 (proj2 (proj2 (trim_cuts_blanks "  "%string)))).
  repeat constructor.
Defined.

(** X13.  A trimmed text is not changed by [trim]; nor is a text that
    neither starts nor ends with a blank. *)
Theorem trim_idempotent s :
  trim (trim s) = trim s
  /\ ((forall c, head (chars s) = Some c -> one_of blank c = false) ->
      (forall c, last (chars s) = Some c -> one_of blank c = false) ->
      trim s = s).
Proof.
  split.
  - destruct (trim_spec s) as (pre & post & _ & _ & _ & Hh & Hl).
    by apply trim_id.
  - apply trim_id.
Qed.

Lemma trim_idempotent_witness : trim "k 42"%string = "k 42"%string.
Proof.
  apply (proj2 (trim_idempotent "k 42"%string)).
  - intros c [= <-]. reflexivity.
  - intros c [= <-]. reflexivity.
Defined.

Lemma blank_line_refreshes_witness :
  command demo_api ["   "%string; "q"%string] demo_session
    = (Continue, demo_session, [Prompt], ["q"%string])
  /\ command demo_api [] demo_session = (Continue, demo_session, [Prompt], []).
Proof.
  split.
  - apply (blank_line_refreshes demo_api ["   "%string; "q"%string] demo_session).
    repeat constructor.
  - apply (blank_line_refreshes demo_api [] demo_session). constructor.
Defined.

Lemma command_dispatch_witness :
  (command demo_api ["  Q "%string] demo_session).1.1.1 = Break.
Proof.
  apply (proj1 (proj2 (proj2 (command_dispatch demo_api ["  Q "%string] demo_session)))).
  right. reflexivity.
Defined.

Lemma unknown_command_ignored_witness :
  (command demo_api ["hello"%string; "q"%string] demo_session).1.2 = [Prompt]
  /\ (command demo_api ["hello"%string; "q"%string] demo_session).2 = ["q"%string].
Proof.
  apply (unknown_command_ignored demo_api "hello" ["q"%string] demo_session
           "h"%char ["e"; "l"; "l"; "o"]%char).
  - reflexivity.
  - reflexivity.
  - reflexivity.
Defined.

Lemma bare_number_is_terminate_request_witness :
  command demo_api ["812"%string; ""%string] demo_session
    = (Continue, demo_session, [Prompt; Terminated 812; PressEnter], [])
  /\ command demo_api ["k812"%string; ""%string] demo_session
     = command demo_api ["812"%string; ""%string] demo_session.
Proof.
  apply (bare_number_is_terminate_request demo_api "k"%char "812"%string
           [""%string] demo_session).
  - split; [discriminate|reflexivity].
  - left. reflexivity.
Defined.

Lemma stoul_value_fits_DWORD_witness :
  is_u32 4294967295 /\ wrap32 4294967295 = 4294967295.
Proof. apply (stoul_value_fits_DWORD "-1"%string 4294967295). reflexivity. Defined.

Lemma elapsed_ticks_in_range_witness :
  is_u32 (MAX_TICK - 0xFFFFFFF0)
  /\ (0xFFFFFFF0 <= 0x0000000A -> deltaMs 0xFFFFFFF0 0x0000000A = 0x0000000A - 0xFFFFFFF0)
  /\ (0x0000000A < 0xFFFFFFF0 ->
      deltaMs 0xFFFFFFF0 0x0000000A = MAX_TICK - 0xFFFFFFF0 + 0x0000000A
      /\ deltaMs 0xFFFFFFF0 0x0000000A = wrap32 (0x0000000A - 0xFFFFFFF0) - 1)
  /\ is_u32 (deltaMs 0xFFFFFFF0 0x0000000A).
Proof.
  apply (elapsed_ticks_in_range 0xFFFFFFF0 0x0000000A); unfold is_u32; lia.
Defined.

Lemma elapsed_zero_iff_witness : deltaMs 0xFFFFFFFF 0 = 0.
Proof.
  apply (elapsed_zero_iff 0xFFFFFFFF 0); [unfold is_u32; lia..|].
  right. split; reflexivity.
Defined.

Lemma FileTimeToULL_value_witness :
  FileTimeToULL {| dwLowDateTime := 5; dwHighDateTime := 2 |} = 2 * 2 ^ 32 + 5.
Proof.
  apply (FileTimeToULL_value {| dwLowDateTime := 5; dwHighDateTime := 2 |});
    unfold is_u32; simpl; lia.
Defined.

Lemma rolling_map_holds_counters_just_read_witness :
  is_u64 1500000
  /\ exists j pe, entries demo_os !! j = Some pe /\ th32ProcessID pe = 812
                  /\ read_time demo_os j 812 = Some 1500000.
Proof.
  apply (rolling_map_holds_counters_just_read demo_os 6000 demo_session 812 1500000).
  vm_compute. reflexivity.
Defined.

Lemma percentage_compares_consecutive_samples_witness :
  fst (sample demo_os 6000 (snd (sample demo_os_earlier 5000 demo_session))) !! 1%nat =
  Some {| pid := 812; name := "svchost.exe";
          cpuPercent := usage (deltaMs 5000 6000) (numCores demo_os) 1500000 500000 |}.
Proof.
  apply (percentage_compares_consecutive_samples
           demo_os_earlier demo_os 5000 6000 demo_session 1%nat 1%nat
           {| th32ProcessID := 812; szExeFile := "svchost.exe" |}
           {| th32ProcessID := 812; szExeFile := "svchost.exe" |} 500000 1500000).
  - reflexivity.
  - reflexivity.
  - intros [|[|[|j']]] pe' Hlt; try lia; simpl; discriminate.
  - reflexivity.
  - reflexivity.
  - reflexivity.
  - reflexivity.
Defined.

Lemma identifier_absent_last_cycle_reports_zero_witness :
  fst (sample demo_os 6000 (snd (sample demo_os_earlier 5000 demo_session))) !! 3%nat =
  Some {| pid := 2044; name := "calc.exe"; cpuPercent := d0 |}.
Proof.
  apply (identifier_absent_last_cycle_reports_zero
           demo_os_earlier demo_os 5000 6000 demo_session 3%nat
           {| th32ProcessID := 2044; szExeFile := "calc.exe" |}).
  - rewrite list_elem_of_In. simpl. intros [H|[H|[]]]; discriminate H.
  - reflexivity.
Defined.


Lemma PrintProcesses_rows_witness :
  exists p shown,
    [ {| pid := 4; name := "a_process_with_a_name_of_more_than_38_characters.exe";
         cpuPercent := d0 |} ] !! 0%nat = Some p
    /\ (0 < topN)%nat
    /\ Row 4 "a_process_with_a_name_of_more_than_38..." d0 = Row (pid p) shown (cpuPercent p)
    /\ (String.length shown <= 40)%nat
    /\ ((String.length (name p) <= 38)%nat -> shown = name p)
    /\ ((38 < String.length (name p))%nat ->
        chars shown = (take 37 (chars (name p)) ++ chars "...")%list).
Proof.
  apply (proj2 (PrintProcesses_rows
                  [ {| pid := 4;
                       name := "a_process_with_a_name_of_more_than_38_characters.exe";
                       cpuPercent := d0 |} ] topN) 0%nat).
  reflexivity.
Defined.

Lemma first_table_compares_with_startup_witness :
  fst (sample demo_os 6000 (main_init demo_os_earlier 5000)) !! 1%nat =
  Some {| pid := 812; name := "svchost.exe";
          cpuPercent := usage (deltaMs 5000 6000) (numCores demo_os) 1500000 500000 |}.
Proof.
  apply (first_table_compares_with_startup
           demo_os_earlier demo_os 5000 6000 1%nat 1%nat
           {| th32ProcessID := 812; szExeFile := "svchost.exe" |}
           {| th32ProcessID := 812; szExeFile := "svchost.exe" |} 500000 1500000).
  - reflexivity.
  - reflexivity.
  - intros [|[|[|j']]] pe' Hlt; try lia; simpl; discriminate.
  - reflexivity.
  - reflexivity.
  - reflexivity.
  - reflexivity.
Defined.

Lemma std_sort_short_returns_same_entries_witness :
  exists r,
    std_sort by_cpu [with_percent S754_nan; with_percent d100; with_percent S754_nan]
      = Some r
    /\ r ≡ₚ [with_percent S754_nan; with_percent d100; with_percent S754_nan].
Proof.
  apply (std_sort_short_returns_same_entries by_cpu
           [with_percent S754_nan; with_percent d100; with_percent S754_nan]).
  simpl. lia.
Defined.

Lemma growth_gives_positive_percentage_witness :
  exists u,
    fst (SnapshotProcesses demo_os main_prevTimes 5000 6000 main_curTimes demo_store)
      !! 1%nat
    = Some {| pid := 812; name := "svchost.exe"; cpuPercent := u |}
    /\ dlt d0 u = true /\ pos_mag (-75) 61 u.
Proof.
  apply (growth_gives_positive_percentage
           demo_os main_prevTimes 5000 6000 main_curTimes demo_store 1%nat
           {| th32ProcessID := 812; szExeFile := "svchost.exe" |} 1500000 500000).
  - discriminate.
  - reflexivity.
  - reflexivity.
  - reflexivity.
  - lia.
  - reflexivity.
Defined.
